(** * TreeStore: an indexed in-memory tree store

    A shallow embedding of [src/lib/TreeStore.ts] and of the record type of
    [src/types/global.ts], followed by the properties of the store's
    query and mutation operations.

    Modelling choices.
    - Records are JavaScript objects: they have an identity and are shared by
      reference between the caller, the ordered sequence, the ID map and the
      children map.  An object is a reference [loc]; the object heap gives the
      current fields of every object.  [Object.assign] writes the heap.  The
      heap is total: every reference denotes an object, and the store only
      ever reads the objects it has been handed.
    - [Map] is a finite map ([gmap]); iteration order of the maps is never
      observed by the store.  Arrays are lists: [push] appends at the end and
      [pop] takes the last element.
    - The two [while] loops carry a fuel argument counting evaluations of the
      loop condition; [None] means the fuel ran out before the loop ended.
      Each loop is given twice: on lists of any length, which is the loop as
      long as its arrays stay within the language's limit on the length of
      an array, and with that limit, where [push] on a full array throws
      [RangeError].  The two agree on every result that fits in an array.
    - A thrown [Error] is an outcome returned together with the state the
      store is left in. *)

From stdpp Require Import base option list functions gmap strings relations.
From Stdlib Require Import ZArith Lia.

#[local] Set Warnings "-clear-no-such-hyp".

Local Open Scope Z_scope.

(** ** Data model *)

(** [string | number]: keys of different kinds are never equal, as in
    JavaScript's [Map] and [!==]. *)
Inductive Key : Type :=
  | KNum (n : Z)
  | KStr (s : string).

#[global] Instance Key_eq_dec : EqDecision Key.
Proof. solve_decision. Defined.

#[global] Instance Key_countable : Countable Key.
Proof.
  refine (inj_countable'
            (λ k, match k with KNum n => inl n | KStr s => inr s end)
            (λ x, match x with inl n => KNum n | inr s => KStr s end) _).
  by intros [].
Defined.

(** Values of the extra fields ([[key: string]: any]); the store never
    inspects them. *)
Inductive JsVal : Type :=
  | JNull
  | JBool (b : bool)
  | JNum (n : Z)
  | JStr (s : string).

#[global] Instance JsVal_eq_dec : EqDecision JsVal.
Proof. solve_decision. Defined.

(** [TreeItem] of [types/global.ts]. *)
Record TreeItem : Type := mkItem {
  id : Key;
  parent : option Key;
  label : string;
  extra : gmap string JsVal
}.

#[global] Instance TreeItem_eq_dec : EqDecision TreeItem.
Proof. solve_decision. Defined.

(** [Object.assign(target, source)] performs [target[key] = source[key]] for
    every own field of [source]: the field of [source] overwrites the field
    of the same name in [target], and fields of [target] that [source] does
    not have are kept.  The one key for which an assignment does not store a
    field is ["__proto__"]: unless [target] already has an own field of that
    name, the assignment reaches the accessor that a record inherits from
    [Object.prototype] and leaves the fields of [target] as they are (the
    prototype of an object is not part of a record). *)
Definition assign (target source : TreeItem) : TreeItem :=
  {| id := id source;
     parent := parent source;
     label := label source;
     extra := (if decide (is_Some (extra target !! "__proto__"))
               then extra source
               else delete "__proto__" (extra source)) ∪ extra target |}.

(** Object references and the object heap. *)
Abbreviation loc := positive (only parsing).
Abbreviation Heap := (loc → TreeItem) (only parsing).

(** The heap and the three private fields of a [TreeStore] instance. *)
Record TreeStore : Type := mkStore {
  heap : Heap;
  items : list loc;
  idMap : gmap Key loc;
  childrenMap : gmap Key (list loc)
}.

(** The two errors thrown by the store:
    [Error(`Item with id ${id} already exists`)] and
    [Error(`Item with id ${id} does not exist`)]. *)
Inductive StoreError : Type :=
  | AlreadyExists (k : Key)
  | DoesNotExist (k : Key).

Inductive Outcome : Type :=
  | Returned
  | Thrown (e : StoreError).

(** ** Index maintenance *)

(** The body shared by the constructor, [addItem], [removeItem] and
    [updateItem]:
    [if (item.parent !== null) {
       if (!childrenMap.has(item.parent)) childrenMap.set(item.parent, []);
       childrenMap.get(item.parent)!.push(item) }]. *)
Definition pushChild (h : Heap) (cm : gmap Key (list loc)) (item : loc)
  : gmap Key (list loc) :=
  match parent (h item) with
  | None => cm
  | Some p => <[p := default [] (cm !! p) ++ [item]]> cm
  end.

(** [childrenMap.clear(); for (const item of items) { ... }]. *)
Definition rebuildChildren (h : Heap) (its : list loc) : gmap Key (list loc) :=
  foldl (pushChild h) ∅ its.

(** One iteration of the constructor's loop. *)
Definition indexItem (h : Heap)
  (maps : gmap Key loc * gmap Key (list loc)) (item : loc)
  : gmap Key loc * gmap Key (list loc) :=
  (<[id (h item) := item]> (fst maps), pushChild h (snd maps) item).

(** [new TreeStore(items)]. *)
Definition new (h : Heap) (input : list loc) : TreeStore :=
  let maps := foldl (indexItem h) (∅, ∅) input in
  {| heap := h; items := input; idMap := fst maps; childrenMap := snd maps |}.

(** ** Queries *)

Definition getAll (s : TreeStore) : list loc := items s.

Definition getItem (s : TreeStore) (k : Key) : option loc := idMap s !! k.

(** [childrenMap.get(id) ?? []]. *)
Definition getChildren (s : TreeStore) (k : Key) : list loc :=
  default [] (childrenMap s !! k).

(** [Array.prototype.pop]: the last element and the remaining array. *)
Fixpoint pop {A} (a : list A) : option (A * list A) :=
  match a with
  | [] => None
  | [x] => Some (x, [])
  | x :: a' => match pop a' with
               | Some (y, r) => Some (y, x :: r)
               | None => None
               end
  end.

(** [for (const child of children) { result.push(child); stack.push(child.id) }]
    on the pair (result, stack). *)
Definition visitChildren (h : Heap) (children : list loc)
  (rs : list loc * list Key) : list loc * list Key :=
  foldl (λ rs child, (fst rs ++ [child], snd rs ++ [id (h child)])) rs children.

(** The [while (stack.length > 0)] loop of [getAllChildren]. *)
Fixpoint getAllChildren_loop (fuel : nat) (s : TreeStore)
  (stack : list Key) (result : list loc) : option (list loc) :=
  match fuel with
  | O => None
  | S fuel' =>
      match pop stack with
      | None => Some result
      | Some (currentId, stack') =>
          let rs := visitChildren (heap s) (getChildren s currentId)
                      (result, stack') in
          getAllChildren_loop fuel' s (snd rs) (fst rs)
      end
  end.

Definition getAllChildren (fuel : nat) (s : TreeStore) (k : Key)
  : option (list loc) :=
  getAllChildren_loop fuel s [k] [].

(** The [while (currentId !== null && idMap.has(currentId))] loop of
    [getAllParents]. *)
Fixpoint getAllParents_loop (fuel : nat) (s : TreeStore)
  (currentId : option Key) (result : list loc) : option (list loc) :=
  match fuel with
  | O => None
  | S fuel' =>
      match currentId with
      | None => Some result
      | Some k =>
          match idMap s !! k with
          | None => Some result
          | Some item =>
              getAllParents_loop fuel' s (parent (heap s item)) (result ++ [item])
          end
      end
  end.

Definition getAllParents (fuel : nat) (s : TreeStore) (k : Key)
  : option (list loc) :=
  getAllParents_loop fuel s (Some k) [].

(** ** The loops with the limit on the length of an array *)

(** An array holds at most 2^32 - 1 elements. *)
Definition arrayLimit : N := 4294967295%N.

(** [push] on an array of this length throws [RangeError]. *)
Definition full {A} (a : list A) : bool :=
  (arrayLimit <=? N.of_nat (length a))%N.

(** How a loop ends: the fuel runs out, it returns, or a [push] throws. *)
Inductive Run (A : Type) : Type :=
  | OutOfFuel
  | Finished (a : A)
  | RangeError.
Arguments OutOfFuel {A}.
Arguments Finished {A} a.
Arguments RangeError {A}.

(** The inner [for] loop of [getAllChildren]; [None] when [result.push] or
    [stack.push] throws. *)
Fixpoint visitChildren_limited (h : Heap) (children : list loc)
  (rs : list loc * list Key) : option (list loc * list Key) :=
  match children with
  | [] => Some rs
  | child :: rest =>
      if full (fst rs) then None
      else if full (snd rs) then None
      else visitChildren_limited h rest
             (fst rs ++ [child], snd rs ++ [id (h child)])
  end.

Fixpoint getAllChildren_limited_loop (fuel : nat) (s : TreeStore)
  (stack : list Key) (result : list loc) : Run (list loc) :=
  match fuel with
  | O => OutOfFuel
  | S fuel' =>
      match pop stack with
      | None => Finished result
      | Some (currentId, stack') =>
          match visitChildren_limited (heap s) (getChildren s currentId)
                  (result, stack') with
          | None => RangeError
          | Some rs => getAllChildren_limited_loop fuel' s (snd rs) (fst rs)
          end
      end
  end.

Definition getAllChildren_limited (fuel : nat) (s : TreeStore) (k : Key)
  : Run (list loc) :=
  getAllChildren_limited_loop fuel s [k] [].

Fixpoint getAllParents_limited_loop (fuel : nat) (s : TreeStore)
  (currentId : option Key) (result : list loc) : Run (list loc) :=
  match fuel with
  | O => OutOfFuel
  | S fuel' =>
      match currentId with
      | None => Finished result
      | Some k =>
          match idMap s !! k with
          | None => Finished result
          | Some item =>
              if full result then RangeError
              else getAllParents_limited_loop fuel' s (parent (heap s item))
                     (result ++ [item])
          end
      end
  end.

Definition getAllParents_limited (fuel : nat) (s : TreeStore) (k : Key)
  : Run (list loc) :=
  getAllParents_limited_loop fuel s (Some k) [].

(** ** Mutations *)

Definition addItem (item : loc) (s : TreeStore) : Outcome * TreeStore :=
  let k := id (heap s item) in
  if decide (is_Some (idMap s !! k)) then (Thrown (AlreadyExists k), s)
  else
    (Returned,
     {| heap := heap s;
        items := items s ++ [item];
        idMap := <[k := item]> (idMap s);
        childrenMap := pushChild (heap s) (childrenMap s) item |}).

Definition removeItem (fuel : nat) (k : Key) (s : TreeStore)
  : option TreeStore :=
  match getAllChildren fuel s k with
  | None => None
  | Some descendants =>
      let toRemove := k :: fmap (λ i, id (heap s i)) descendants in
      let toRemoveSet : gset Key := list_to_set toRemove in
      let items' :=
        filter (λ item, id (heap s item) ∉ toRemoveSet) (items s) in
      Some {| heap := heap s;
              items := items';
              idMap := foldl (λ m rid, delete rid m) (idMap s) toRemove;
              childrenMap := rebuildChildren (heap s) items' |}
  end.

Definition updateItem (item : loc) (s : TreeStore) : Outcome * TreeStore :=
  match getItem s (id (heap s item)) with
  | None => (Thrown (DoesNotExist (id (heap s item))), s)
  | Some oldItem =>
      let parentChanged :=
        bool_decide (parent (heap s oldItem) ≠ parent (heap s item)) in
      let h' : Heap :=
        <[oldItem := assign (heap s oldItem) (heap s item)]> (heap s) in
      let idMap' := <[id (h' item) := oldItem]> (idMap s) in
      (Returned,
       {| heap := h';
          items := items s;
          idMap := idMap';
          childrenMap := if parentChanged then rebuildChildren h' (items s)
                         else childrenMap s |})
  end.

(** ** The grid component, [components/TreeGrid.vue] *)

(** [treeStore = computed(() => new TreeStore(reactiveItems.value))]. *)
Definition treeStore (h : Heap) (reactiveItems : list loc) : TreeStore :=
  new h reactiveItems.

(** [getDataPath(data)], reading the store [treeStore.value].  [None] stands
    for the null or undefined [data] that the guard [if (!data)] catches.
    The array returned by [getAllParents] is always defined, so of
    [!parents || parents.length === 0] only the length test remains. *)
Definition getDataPath (fuel : nat) (s : TreeStore) (data : option loc)
  : option (list Key) :=
  match data with
  | None => Some []
  | Some d =>
      match parent (heap s d) with
      | None => Some [id (heap s d)]
      | Some _ =>
          match getAllParents fuel s (id (heap s d)) with
          | None => None
          | Some parents =>
              if decide (length parents = 0%nat) then Some []
              else Some (fmap (λ item, id (heap s item)) (reverse parents))
          end
      end
  end.

(** [innerRenderer(params)] of the group column, on [params.data].  The type
    of a record gives it an id, so of [!item || item.id === undefined] only
    the case of missing data remains. *)
Definition innerRenderer (s : TreeStore) (data : option loc) : string :=
  match data with
  | None => EmptyString
  | Some item =>
      let hasChildren :=
        bool_decide (0 < length (getChildren s (id (heap s item))))%nat in
      if hasChildren then "Группа" else "Элемент"
  end.

(** ** The test fixture of [TreeStore.test.ts] *)

(** [makeItem(id, parent, label)]; the test suite passes numeric ids and the
    label [`Item ${id}`]. *)
Definition makeItem (k : Z) (p : option Z) (lbl : string) : TreeItem :=
  {| id := KNum k; parent := KNum <$> p; label := lbl; extra := ∅ |}.

(** Objects 1 to 7 are the records of [beforeEach]; every other reference
    stands for an object the store has not been given. *)
Definition fixtureHeap : Heap := λ l,
  match l with
  | 1%positive => makeItem 1 None "Item 1"
  | 2%positive => makeItem 2 (Some 1) "Item 2"
  | 3%positive => makeItem 3 (Some 1) "Item 3"
  | 4%positive => makeItem 4 (Some 2) "Item 4"
  | 5%positive => makeItem 5 (Some 2) "Item 5"
  | 6%positive => makeItem 6 (Some 3) "Item 6"
  | 7%positive => makeItem 7 None "Item 7"
  | _ => makeItem 8 (Some 1) "Item 8"
  end.

Definition fixture : TreeStore :=
  new fixtureHeap [1; 2; 3; 4; 5; 6; 7]%positive.

(** [brokenStore] of the test "should stop at missing parent": the fixture
    with the record [{ id: 99, parent: 98, label: 'broken' }] appended. *)
Definition brokenHeap : Heap :=
  <[8%positive := {| id := KNum 99; parent := Some (KNum 98);
                     label := "broken"; extra := ∅ |}]> fixtureHeap.

Definition brokenStore : TreeStore :=
  new brokenHeap [1; 2; 3; 4; 5; 6; 7; 8]%positive.

(** The fixture next to the argument of the test "should handle parent change
    correctly", [{ id: 2, parent: 3, label: 'Item 2' }], held by object 9. *)
Definition movedHeap : Heap :=
  <[9%positive := makeItem 2 (Some 3) "Item 2"]> fixtureHeap.

Definition movedStore : TreeStore :=
  new movedHeap [1; 2; 3; 4; 5; 6; 7]%positive.

(** The fixture next to an update that would put record 1 under its own
    grandchild, [{ id: 1, parent: 4, label: 'Item 1' }], held by object 9. *)
Definition loopingHeap : Heap :=
  <[9%positive := makeItem 1 (Some 4) "Item 1"]> fixtureHeap.

Definition loopingStore : TreeStore :=
  new loopingHeap [1; 2; 3; 4; 5; 6; 7]%positive.



(** A record that is its own parent next to a root. *)
Definition mixedHeap : Heap := λ l,
  match l with
  | 1%positive => makeItem 1 (Some 1) "Item 1"
  | _ => makeItem 2 None "Item 2"
  end.

Definition mixedStore : TreeStore := new mixedHeap [1; 2]%positive.

(** Two distinct records carrying the same id. *)
Definition twinHeap : Heap := λ l, makeItem 1 None "Item 1".

Definition twinStore : TreeStore := new twinHeap [1; 2]%positive.

(** A's parent is B and B's parent is A. *)
Definition cycleHeap : Heap := λ l,
  match l with
  | 1%positive => {| id := KStr "A"; parent := Some (KStr "B");
                     label := "A"; extra := ∅ |}
  | _ => {| id := KStr "B"; parent := Some (KStr "A");
            label := "B"; extra := ∅ |}
  end.

Definition cycleStore : TreeStore := new cycleHeap [1; 2]%positive.

Definition keyRank (k : Key) : nat :=
  match k with KNum n => Z.to_nat n | KStr _ => 0%nat end.

(** ** Specification vocabulary *)

(** The ids of a list of records. *)
Definition idsOf (s : TreeStore) (ls : list loc) : list Key :=
  fmap (λ l, id (heap s l)) ls.

(** The records of a sequence whose [parent] is [p], in sequence order. *)
Definition childrenOf (h : Heap) (its : list loc) (p : Key) : list loc :=
  filter (λ l, parent (h l) = Some p) its.

(** The invariants of the store, in the form the operations maintain. *)
Record StoreInv (s : TreeStore) : Prop := {
  inv_unique : NoDup (fmap (λ l, id (heap s l)) (items s));
  inv_idMap : ∀ k l, idMap s !! k = Some l ↔ l ∈ items s ∧ id (heap s l) = k;
  inv_children : childrenMap s = rebuildChildren (heap s) (items s)
}.

(** The part of the invariants that holds whatever the constructor is given:
    the ID map only holds records of the sequence, each under its own id, and
    the children map is the one derived from the sequence. *)
Record Indexed (s : TreeStore) : Prop := {
  idx_idMap : ∀ k l, idMap s !! k = Some l → l ∈ items s ∧ id (heap s l) = k;
  idx_children : childrenMap s = rebuildChildren (heap s) (items s)
}.

(** The three invariants as the data model words them. *)
Definition UniqueIds (s : TreeStore) : Prop :=
  ∀ i j a b, items s !! i = Some a → items s !! j = Some b →
             id (heap s a) = id (heap s b) → i = j.

Definition IdMapExact (s : TreeStore) : Prop :=
  ∀ k l, idMap s !! k = Some l ↔ l ∈ items s ∧ id (heap s l) = k.

Definition ChildrenExact (s : TreeStore) : Prop :=
  ∀ p, (∃ l, l ∈ items s ∧ parent (heap s l) = Some p) →
       childrenMap s !! p = Some (childrenOf (heap s) (items s) p).

(** Stores obtained from [s0] by any sequence of public mutations. *)
Inductive ReachableFrom (s0 : TreeStore) : TreeStore → Prop :=
  | reach_init : ReachableFrom s0 s0
  | reach_add s item :
      ReachableFrom s0 s → ReachableFrom s0 (addItem item s).2
  | reach_remove s fuel k s' :
      ReachableFrom s0 s → removeItem fuel k s = Some s' → ReachableFrom s0 s'
  | reach_update s item :
      ReachableFrom s0 s → ReachableFrom s0 (updateItem item s).2.

(** [x] has parent [y]: some record of the sequence has id [x] and parent [y]. *)
Definition par (s : TreeStore) (x y : Key) : Prop :=
  ∃ l, l ∈ items s ∧ id (heap s l) = x ∧ parent (heap s l) = Some y.

(** The parent relation has no cycle. *)
Definition Acyclic (s : TreeStore) : Prop := ∀ x, ¬ tc (par s) x x.

(** Record [l] of the sequence is a strict descendant of [k]. *)
Definition descendant (s : TreeStore) (l : loc) (k : Key) : Prop :=
  l ∈ items s ∧ tc (par s) (id (heap s l)) k.

(** [a] occurs at an earlier position than [b]. *)
Definition before (xs : list loc) (a b : loc) : Prop :=
  ∃ l1 l2 l3, xs = l1 ++ a :: l2 ++ b :: l3.

(** Running the loop for [n] iterations consumes the stack segment [ks] and
    appends [out] to the result, whatever lies below the segment. *)
Definition runs (s : TreeStore) (n : nat) (ks : list Key) (out : list loc)
  : Prop :=
  ∀ m st res,
    getAllChildren_loop (n + m) s (st ++ ks) res
    = getAllChildren_loop m s st (res ++ out).

(** [out] lists the strict descendants of [k], each once, ancestors first. *)
Definition SubtreeOut (s : TreeStore) (k : Key) (out : list loc) : Prop :=
  (∀ l, l ∈ out ↔ descendant s l k)
  ∧ NoDup out
  ∧ (∀ a b, a ∈ out → descendant s b (id (heap s a)) → before out a b).

Definition ForestOut (s : TreeStore) (cs out : list loc) : Prop :=
  (∀ l, l ∈ out ↔ ∃ c, c ∈ cs ∧ descendant s l (id (heap s c)))
  ∧ NoDup out
  ∧ (∀ a b, a ∈ out → descendant s b (id (heap s a)) → before out a b).

(** The walk that starts at [c] and follows [parent] through the ID map while
    the current id is non-null and present. *)
Inductive AncestorPath (s : TreeStore) : option Key → list loc → Prop :=
  | path_null : AncestorPath s None []
  | path_absent k : idMap s !! k = None → AncestorPath s (Some k) []
  | path_step k l rest :
      idMap s !! k = Some l →
      AncestorPath s (parent (heap s l)) rest →
      AncestorPath s (Some k) (l :: rest).

(** The record registered under [x] has parent [y]: one step of the ancestor
    walk. *)
Definition parentOf (s : TreeStore) (x y : Key) : Prop :=
  ∃ l, getItem s x = Some l ∧ parent (heap s l) = Some y.

(** An id whose ancestor walk leads into a cycle. *)
Definition reachesCycle (s : TreeStore) (k : Key) : Prop :=
  ∃ c, rtc (parentOf s) k c ∧ tc (parentOf s) c c.

(** Every non-null parent of a record of the sequence is present. *)
Definition NoOrphans (s : TreeStore) : Prop :=
  ∀ l p, l ∈ items s → parent (heap s l) = Some p → is_Some (getItem s p).

(** A cycle of the parent relation lies below [k]. *)
Definition aboveCycle (s : TreeStore) (k : Key) : Prop :=
  ∃ c, tc (par s) c c ∧ tc (par s) c k.

(** One step of the ancestor walk that started at [k]. *)
Definition walkFrom (s : TreeStore) (k x y : Key) : Prop :=
  rtc (parentOf s) k x ∧ parentOf s x y.

(** One step down from [x] to a child id, at or below [k]. *)
Definition descentFrom (s : TreeStore) (k x c : Key) : Prop :=
  rtc (par s) x k ∧ par s c x.

(** * Lemmas *)

Ltac list_assoc :=
  repeat (progress (rewrite <- ?app_assoc; cbn [app])); try reflexivity.

(** ** The test fixture evaluates *)

Example fixture_children :
  getChildren fixture (KNum 1) = [2; 3]%positive.
Proof. vm_compute. reflexivity. Qed.

Example fixture_descendants :
  getAllChildren 10 fixture (KNum 1) = Some [2; 3; 6; 4; 5]%positive.
Proof. vm_compute. reflexivity. Qed.

(** ** Arrays *)

Lemma pop_snoc {A} (a : list A) (x : A) : pop (a ++ [x]) = Some (x, a).
Proof.
  induction a as [|y a IH]; [done|].
  simpl. rewrite IH. by destruct (a ++ [x]) eqn:E; [destruct a|].
Qed.

Lemma visitChildren_eq h children result stack :
  visitChildren h children (result, stack)
  = (result ++ children, stack ++ fmap (λ c, id (h c)) children).
Proof.
  unfold visitChildren. revert result stack.
  induction children as [|c cs IH]; intros result stack; simpl.
  - by rewrite !app_nil_r.
  - rewrite IH. by rewrite <- !app_assoc.
Qed.

(** ** The children index *)

Lemma pushChild_lookup h cm item p :
  pushChild h cm item !! p
  = if decide (parent (h item) = Some p)
    then Some (default [] (cm !! p) ++ [item]) else cm !! p.
Proof.
  unfold pushChild. destruct (parent (h item)) as [q|] eqn:E.
  - case_decide as Hq.
    + injection Hq as ->. by rewrite lookup_insert_eq.
    + rewrite lookup_insert_ne; [done|congruence].
  - by case_decide.
Qed.

Lemma foldl_pushChild_lookup h its cm p :
  foldl (pushChild h) cm its !! p
  = match childrenOf h its p with
    | [] => cm !! p
    | c :: cs => Some (default [] (cm !! p) ++ c :: cs)
    end.
Proof.
  revert cm. induction its as [|a its IH]; intros cm; [done|].
  simpl. rewrite IH, pushChild_lookup. unfold childrenOf.
  rewrite filter_cons. case_decide as Hp; simpl.
  - fold (childrenOf h its p). destruct (childrenOf h its p); [done|].
    by rewrite <- app_assoc.
  - done.
Qed.

Lemma rebuildChildren_lookup h its p :
  rebuildChildren h its !! p
  = match childrenOf h its p with [] => None | c :: cs => Some (c :: cs) end.
Proof.
  unfold rebuildChildren. rewrite foldl_pushChild_lookup, lookup_empty.
  by destruct (childrenOf h its p).
Qed.

Lemma rebuildChildren_default h its p :
  default [] (rebuildChildren h its !! p) = childrenOf h its p.
Proof. rewrite rebuildChildren_lookup. by destruct (childrenOf h its p). Qed.

Lemma rebuildChildren_snoc h its item :
  rebuildChildren h (its ++ [item]) = pushChild h (rebuildChildren h its) item.
Proof. unfold rebuildChildren. by rewrite foldl_app. Qed.

Lemma childrenOf_ext (h h' : Heap) (its : list loc) p :
  (∀ l, l ∈ its → parent (h l) = parent (h' l)) →
  childrenOf h its p = childrenOf h' its p.
Proof.
  intros Hp. unfold childrenOf. induction its as [|a its IH]; [done|].
  rewrite !filter_cons. rewrite IH by (intros; apply Hp; set_solver).
  rewrite (Hp a) by set_solver. done.
Qed.

Lemma rebuildChildren_ext (h h' : Heap) (its : list loc) :
  (∀ l, l ∈ its → parent (h l) = parent (h' l)) →
  rebuildChildren h its = rebuildChildren h' its.
Proof.
  intros Hp. apply map_eq. intros p.
  by rewrite !rebuildChildren_lookup, (childrenOf_ext h h' its p Hp).
Qed.

Lemma elem_of_childrenOf (h : Heap) (its : list loc) p l :
  l ∈ childrenOf h its p ↔ l ∈ its ∧ parent (h l) = Some p.
Proof. unfold childrenOf. rewrite list_elem_of_filter. tauto. Qed.

Lemma getChildren_inv s p :
  childrenMap s = rebuildChildren (heap s) (items s) →
  getChildren s p = childrenOf (heap s) (items s) p.
Proof. intros E. unfold getChildren. rewrite E. apply rebuildChildren_default. Qed.

(** ** The ID index *)

Lemma foldl_indexItem_fst h input maps :
  (foldl (indexItem h) maps input).1
  = foldl (λ m l, <[id (h l) := l]> m) maps.1 input.
Proof. revert maps. induction input as [|a input IH]; intros maps; [done|]. simpl. by rewrite IH. Qed.

Lemma foldl_indexItem_snd h input maps :
  (foldl (indexItem h) maps input).2 = foldl (pushChild h) maps.2 input.
Proof. revert maps. induction input as [|a input IH]; intros maps; [done|]. simpl. by rewrite IH. Qed.

Lemma NoDup_ids_inj (h : Heap) (its : list loc) (a b : loc) :
  NoDup (fmap (λ l, id (h l)) its) → a ∈ its → b ∈ its → id (h a) = id (h b) → a = b.
Proof.
  induction its as [|x its IH]; intros Hnd Ha Hb E; [by apply elem_of_nil in Ha|].
  simpl in Hnd. apply NoDup_cons in Hnd as [Hx Hnd].
  apply elem_of_cons in Ha as [->|Ha]; apply elem_of_cons in Hb as [->|Hb]; auto.
  - exfalso. apply Hx. rewrite E. apply (list_elem_of_fmap_2 (λ l, id (h l))), Hb.
  - exfalso. apply Hx. rewrite <- E. apply (list_elem_of_fmap_2 (λ l, id (h l))), Ha.
Qed.

Lemma foldl_set_lookup (h : Heap) (input : list loc) (k : Key) (l : loc) :
  NoDup (fmap (λ l, id (h l)) input) →
  foldl (λ m l, <[id (h l) := l]> m) (∅ : gmap Key loc) input !! k = Some l
  ↔ l ∈ input ∧ id (h l) = k.
Proof.
  revert k l. induction input as [|x input IH] using rev_ind; intros k l Hnd.
  - simpl. rewrite lookup_empty. split; [done|]. intros [H _]. by apply elem_of_nil in H.
  - rewrite foldl_app. simpl.
    assert (NoDup (fmap (λ l, id (h l)) input)) as Hnd'.
    { rewrite fmap_app in Hnd. by apply NoDup_app in Hnd as (? & _ & _). }
    destruct (decide (id (h x) = k)) as [<-|Hk].
    + rewrite lookup_insert_eq. split.
      * intros [= <-]. split; [set_solver|done].
      * intros [Hl E]. f_equal. symmetry.
        apply (NoDup_ids_inj h (input ++ [x])); [done|done|set_solver|done].
    + rewrite lookup_insert_ne by done. rewrite IH by done.
      split; intros [Hl E]; (split; [|done]).
      * set_solver.
      * apply elem_of_app in Hl as [Hl|Hl]; [done|].
        apply list_elem_of_singleton in Hl. congruence.
Qed.

Lemma foldl_delete_lookup (m : gmap Key loc) (ks : list Key) k :
  foldl (λ m rid, delete rid m) m ks !! k
  = if decide (k ∈ ks) then None else m !! k.
Proof.
  revert m. induction ks as [|a ks IH]; intros m; simpl.
  - done.
  - rewrite IH. destruct (decide (k ∈ ks)) as [Hin|Hin].
    + rewrite decide_True; [done|]. by apply elem_of_cons; right.
    + destruct (decide (a = k)) as [->|Hne].
      * rewrite decide_True; [|by apply elem_of_cons; left].
        apply lookup_delete_eq.
      * rewrite decide_False; [by apply lookup_delete_ne|].
        intros [->|?]%elem_of_cons; done.
Qed.

(** ** The invariants are established and maintained *)

Lemma new_childrenMap h input :
  childrenMap (new h input) = rebuildChildren h input.
Proof. unfold new; simpl. by rewrite foldl_indexItem_snd. Qed.

Lemma new_inv (h : Heap) (input : list loc) :
  NoDup (fmap (λ l, id (h l)) input) → StoreInv (new h input).
Proof.
  intros Hnd. split; simpl.
  - done.
  - intros k l. rewrite foldl_indexItem_fst. simpl. by apply foldl_set_lookup.
  - apply new_childrenMap.
Qed.

Lemma id_in_idMap s l :
  StoreInv s → l ∈ items s → idMap s !! id (heap s l) = Some l.
Proof. intros I Hl. by apply (inv_idMap s I). Qed.

Lemma addItem_children s item :
  childrenMap s = rebuildChildren (heap s) (items s) →
  childrenMap (addItem item s).2
  = rebuildChildren (heap (addItem item s).2) (items (addItem item s).2).
Proof.
  intros E. unfold addItem. case_decide; simpl; [done|].
  by rewrite rebuildChildren_snoc, E.
Qed.

Lemma addItem_inv s item : StoreInv s → StoreInv (addItem item s).2.
Proof.
  intros I. pose proof (addItem_children s item (inv_children s I)) as Hc.
  revert Hc. unfold addItem. case_decide as Hk; simpl; [done|]. intros Hc.
  assert (idMap s !! id (heap s item) = None) as Hnone.
  { destruct (idMap s !! id (heap s item)) eqn:E; [|done]. destruct Hk. eauto. }
  split; simpl; [| |done].
  - rewrite fmap_app. apply NoDup_app. split; [apply (inv_unique s I)|]. split.
    + intros x Hx [->|Hin]%elem_of_cons; [|by apply elem_of_nil in Hin].
      apply list_elem_of_fmap in Hx as (l & E & Hl).
      apply (id_in_idMap s l I) in Hl. congruence.
    + apply NoDup_singleton.
  - intros k l. destruct (decide (id (heap s item) = k)) as [<-|Hne].
    + rewrite lookup_insert_eq. split.
      * intros [= <-]. split; [|done]. apply elem_of_app. right. by left.
      * intros [Hl E]. apply elem_of_app in Hl as [Hl|Hl].
        -- apply (id_in_idMap s l I) in Hl. congruence.
        -- apply list_elem_of_singleton in Hl. by subst.
    + rewrite lookup_insert_ne by done. rewrite (inv_idMap s I). split.
      * intros [Hl E]. split; [|done]. apply elem_of_app. by left.
      * intros [Hl E]. split; [|done]. apply elem_of_app in Hl as [Hl|Hl]; [done|].
        apply list_elem_of_singleton in Hl. by subst.
Qed.

Lemma removeItem_Some fuel k s s' :
  removeItem fuel k s = Some s' →
  ∃ d, getAllChildren fuel s k = Some d
       ∧ heap s' = heap s
       ∧ items s' = filter (λ item, id (heap s item) ∉
                      (list_to_set (k :: fmap (λ i, id (heap s i)) d) : gset Key))
                      (items s)
       ∧ idMap s' = foldl (λ m rid, delete rid m) (idMap s)
                      (k :: fmap (λ i, id (heap s i)) d)
       ∧ childrenMap s' = rebuildChildren (heap s') (items s').
Proof.
  unfold removeItem. destruct (getAllChildren fuel s k) as [d|]; [|done].
  intros [= <-]. by exists d.
Qed.

Lemma removeItem_of_descendants fuel k s d :
  getAllChildren fuel s k = Some d → ∃ s', removeItem fuel k s = Some s'.
Proof. intros E. unfold removeItem. rewrite E. eauto. Qed.

Lemma removeItem_inv fuel k s s' :
  StoreInv s → removeItem fuel k s = Some s' → StoreInv s'.
Proof.
  intros I H.
  destruct (removeItem_Some _ _ _ _ H) as (d & Hd & Hh & Hi & Hm & Hc).
  split; [| |done].
  - rewrite Hh, Hi. eapply sublist_NoDup; [apply (inv_unique s I)|].
    apply fmap_sublist, sublist_filter.
  - intros k' l. rewrite Hh, Hi, Hm.
    rewrite foldl_delete_lookup, list_elem_of_filter.
    case_decide as Hin.
    + split; [done|]. intros [[Hn _] E]. exfalso. apply Hn.
      apply elem_of_list_to_set. by rewrite E.
    + rewrite (inv_idMap s I). split.
      * intros [Hl E]. split; [|done]. split; [|done].
        rewrite elem_of_list_to_set. by rewrite E.
      * intros [[_ Hl] E]. done.
Qed.

Lemma updateItem_id_heap s item oldItem l :
  idMap s !! id (heap s item) = Some oldItem →
  id (heap s oldItem) = id (heap s item) →
  id ((<[oldItem := assign (heap s oldItem) (heap s item)]> (heap s)) l)
  = id (heap s l).
Proof.
  intros Hold E. destruct (decide (oldItem = l)) as [<-|Hne].
  - by rewrite fn_lookup_insert.
  - by rewrite fn_lookup_insert_ne.
Qed.

Lemma updateItem_Some s item old :
  getItem s (id (heap s item)) = Some old →
  updateItem item s
  = (Returned,
     {| heap := <[old := assign (heap s old) (heap s item)]> (heap s);
        items := items s;
        idMap := idMap s;
        childrenMap :=
          if bool_decide (parent (heap s old) ≠ parent (heap s item))
          then rebuildChildren
                 (<[old := assign (heap s old) (heap s item)]> (heap s))
                 (items s)
          else childrenMap s |}).
Proof.
  intros Hold. unfold updateItem. rewrite Hold. cbv zeta.
  assert (id ((<[old := assign (heap s old) (heap s item)]> (heap s)) item)
          = id (heap s item)) as ->.
  { destruct (decide (old = item)) as [->|Hne].
    - by rewrite fn_lookup_insert.
    - by rewrite fn_lookup_insert_ne. }
  by rewrite (insert_id (idMap s) _ old Hold).
Qed.

Lemma updateItem_None s item :
  getItem s (id (heap s item)) = None →
  updateItem item s = (Thrown (DoesNotExist (id (heap s item))), s).
Proof. intros Hnone. unfold updateItem. by rewrite Hnone. Qed.

Lemma updateItem_children s item :
  childrenMap s = rebuildChildren (heap s) (items s) →
  childrenMap (updateItem item s).2
  = rebuildChildren (heap (updateItem item s).2) (items (updateItem item s).2).
Proof.
  intros E. unfold updateItem, getItem.
  destruct (idMap s !! id (heap s item)) as [oldItem|] eqn:Hold; simpl; [|done].
  case_bool_decide as Hp; [done|].
  rewrite E. apply rebuildChildren_ext. intros l _.
  destruct (decide (oldItem = l)) as [<-|Hne].
  - rewrite fn_lookup_insert. simpl. by destruct (decide (parent (heap s oldItem) = parent (heap s item))).
  - by rewrite fn_lookup_insert_ne.
Qed.

Lemma updateItem_inv s item : StoreInv s → StoreInv (updateItem item s).2.
Proof.
  intros I. pose proof (updateItem_children s item (inv_children s I)) as Hc.
  revert Hc. unfold updateItem, getItem.
  destruct (idMap s !! id (heap s item)) as [oldItem|] eqn:Hold; simpl; [|done].
  intros Hc.
  assert (id (heap s oldItem) = id (heap s item)) as Hid.
  { by apply (inv_idMap s I) in Hold as [_ ?]. }
  pose proof (updateItem_id_heap s item oldItem) as Hh.
  split; simpl; [| |done].
  - erewrite list_fmap_ext; [apply (inv_unique s I)|].
    intros i x _. simpl. by apply Hh.
  - intros k l. rewrite Hh by done. rewrite insert_id by done.
    rewrite Hh by done. apply (inv_idMap s I).
Qed.

(** ** The indexes of every reachable store *)

Lemma StoreInv_Indexed s : StoreInv s → Indexed s.
Proof.
  intros I. split; [|apply (inv_children s I)].
  intros k l. apply (inv_idMap s I).
Qed.

Lemma foldl_set_sound (h : Heap) (input : list loc) (k : Key) (l : loc) :
  foldl (λ m l, <[id (h l) := l]> m) (∅ : gmap Key loc) input !! k = Some l →
  l ∈ input ∧ id (h l) = k.
Proof.
  revert k l. induction input as [|x input IH] using rev_ind; intros k l.
  - simpl. by rewrite lookup_empty.
  - rewrite foldl_app. simpl. destruct (decide (id (h x) = k)) as [<-|Hk].
    + rewrite lookup_insert_eq. intros [= <-]. split; [|done].
      apply elem_of_app. right. by left.
    + rewrite lookup_insert_ne by done. intros [Hl E]%IH. split; [|done].
      apply elem_of_app. by left.
Qed.

Lemma new_indexed (h : Heap) (input : list loc) : Indexed (new h input).
Proof.
  split; [|apply new_childrenMap].
  intros k l. unfold new. cbn [idMap heap items].
  rewrite foldl_indexItem_fst. apply foldl_set_sound.
Qed.

Lemma addItem_indexed s item : Indexed s → Indexed (addItem item s).2.
Proof.
  intros X. split; [|apply addItem_children, (idx_children s X)].
  unfold addItem. case_decide as Hk; cbn [snd idMap heap items].
  - apply (idx_idMap s X).
  - intros k l. destruct (decide (id (heap s item) = k)) as [<-|Hne].
    + rewrite lookup_insert_eq. intros [= <-]. split; [|done].
      apply elem_of_app. right. by left.
    + rewrite lookup_insert_ne by done. intros [Hl E]%(idx_idMap s X).
      split; [|done]. apply elem_of_app. by left.
Qed.

Lemma removeItem_indexed fuel k s s' :
  Indexed s → removeItem fuel k s = Some s' → Indexed s'.
Proof.
  intros X H.
  destruct (removeItem_Some _ _ _ _ H) as (d & Hd & Hh & Hi & Hm & Hc).
  split; [|done]. intros k' l. rewrite Hh, Hi, Hm.
  rewrite foldl_delete_lookup, list_elem_of_filter.
  case_decide as Hin; [done|]. intros [Hl E]%(idx_idMap s X).
  split; [|done]. split; [|done]. rewrite elem_of_list_to_set. by rewrite E.
Qed.

Lemma updateItem_indexed s item : Indexed s → Indexed (updateItem item s).2.
Proof.
  intros X. split; [|apply updateItem_children, (idx_children s X)].
  destruct (getItem s (id (heap s item))) as [old|] eqn:Hold.
  - rewrite (updateItem_Some s item old Hold). cbn [snd idMap heap items].
    assert (id (heap s old) = id (heap s item)) as Hid
      by by apply (idx_idMap s X) in Hold as [_ ?].
    intros k l [Hl E]%(idx_idMap s X). split; [done|].
    destruct (decide (old = l)) as [<-|Hne].
    + rewrite fn_lookup_insert. cbn [assign id]. congruence.
    + by rewrite fn_lookup_insert_ne.
  - rewrite (updateItem_None s item Hold). apply (idx_idMap s X).
Qed.

Lemma getChildren_elem s p l :
  childrenMap s = rebuildChildren (heap s) (items s) →
  l ∈ getChildren s p ↔ l ∈ items s ∧ parent (heap s l) = Some p.
Proof. intros Hc. rewrite (getChildren_inv s p Hc). apply elem_of_childrenOf. Qed.

(** ** The parent relation of a store that satisfies the invariants *)

Lemma tc_flip {A} (R : relation A) x y : tc (flip R) x y ↔ tc R y x.
Proof.
  split.
  - induction 1 as [x y H|x y z H _ IH]; [by apply tc_once|].
    eapply tc_r; [apply IH|apply H].
  - induction 1 as [x y H|x y z H _ IH]; [by apply tc_once|].
    eapply tc_r; [apply IH|apply H].
Qed.

Lemma tc_last {A} (R : relation A) x z :
  tc R x z → R x z ∨ ∃ y, tc R x y ∧ R y z.
Proof.
  induction 1 as [x y H|x y z H Hyz IH]; [by left|]. right.
  destruct IH as [Hd|(w & Hw & Hwz)].
  - exists y. split; [by apply tc_once|done].
  - exists w. split; [|done]. by eapply tc_l.
Qed.

Lemma before_app_l xs ys a b : before xs a b → before (xs ++ ys) a b.
Proof.
  intros (l1 & l2 & l3 & ->). exists l1, l2, (l3 ++ ys). list_assoc.
Qed.

Lemma before_app_r xs ys a b : before ys a b → before (xs ++ ys) a b.
Proof.
  intros (l1 & l2 & l3 & ->). exists (xs ++ l1), l2, l3. list_assoc.
Qed.

Lemma before_app xs ys a b : a ∈ xs → b ∈ ys → before (xs ++ ys) a b.
Proof.
  intros (l1 & l2 & ->)%list_elem_of_split (m1 & m2 & ->)%list_elem_of_split.
  exists l1, (l2 ++ m1), m2. list_assoc.
Qed.

Section Forest.
Variable s : TreeStore.
Hypothesis I : StoreInv s.

Lemma items_NoDup : NoDup (items s).
Proof. eapply NoDup_fmap_1, (inv_unique s I). Qed.

Lemma item_of_id a b :
  a ∈ items s → b ∈ items s → id (heap s a) = id (heap s b) → a = b.
Proof. apply NoDup_ids_inj, (inv_unique s I). Qed.

Lemma getChildren_spec p l :
  l ∈ getChildren s p ↔ l ∈ items s ∧ parent (heap s l) = Some p.
Proof.
  rewrite (getChildren_inv s p (inv_children s I)). apply elem_of_childrenOf.
Qed.

Lemma getChildren_NoDup p : NoDup (getChildren s p).
Proof.
  rewrite (getChildren_inv s p (inv_children s I)).
  apply NoDup_filter, items_NoDup.
Qed.

Lemma par_item l y :
  l ∈ items s → par s (id (heap s l)) y ↔ parent (heap s l) = Some y.
Proof.
  intros Hl. split.
  - intros (l' & Hl' & E & Hp). by rewrite <- (item_of_id l' l Hl' Hl E).
  - intros Hp. by exists l.
Qed.

Lemma par_fun x y z : par s x y → par s x z → y = z.
Proof.
  intros (l & Hl & <- & Hp) Hz. apply (par_item l z Hl) in Hz. congruence.
Qed.

(** Following parent links from [x] first reaches the parent [p] of [x]. *)
Lemma tc_par_head x p y : par s x p → tc (par s) x y → rtc (par s) p y.
Proof.
  intros Hp H. inversion H as [? ? H1|? w ? H1 H2]; subst.
  - rewrite (par_fun _ _ _ Hp H1). apply rtc_refl.
  - rewrite (par_fun _ _ _ Hp H1). by apply tc_rtc.
Qed.

(** The ancestors of a record are linearly ordered. *)
Lemma tc_par_linear x y z :
  tc (par s) x y → tc (par s) x z → y = z ∨ tc (par s) y z ∨ tc (par s) z y.
Proof.
  intros Hy. revert z. induction Hy as [x y H|x w y H Hy IH]; intros z Hz.
  - apply (tc_par_head x y z H) in Hz. apply rtc_tc in Hz. tauto.
  - apply (tc_par_head x w z H) in Hz. apply rtc_tc in Hz as [<-|Hz].
    + right. right. done.
    + by apply IH.
Qed.

Hypothesis Hacyc : Acyclic s.

Lemma child_not_below_sibling x l c :
  l ∈ items s → parent (heap s l) = Some x →
  c ∈ items s → parent (heap s c) = Some x →
  ¬ tc (par s) (id (heap s l)) (id (heap s c)).
Proof.
  intros Hl Hlp Hc Hcp H.
  apply (tc_par_head _ x) in H; [|by apply par_item].
  apply (Hacyc x). eapply tc_rtc_l; [apply H|].
  apply tc_once. by apply par_item.
Qed.

Lemma siblings_disjoint x c c' l :
  c ∈ items s → parent (heap s c) = Some x →
  c' ∈ items s → parent (heap s c') = Some x →
  tc (par s) (id (heap s l)) (id (heap s c)) →
  tc (par s) (id (heap s l)) (id (heap s c')) →
  c = c'.
Proof.
  intros Hc Hcp Hc' Hcp' H H'.
  destruct (tc_par_linear _ _ _ H H') as [E|[T|T]].
  - by apply item_of_id.
  - by apply (child_not_below_sibling x) in T.
  - by apply (child_not_below_sibling x) in T.
Qed.

(** Children lie strictly below their parent: the relation is well founded
    in both directions. *)
Lemma par_wf_down x : Acc (par s) x.
Proof.
  apply (tc_finite_sn (R := flip (par s)) x).
  - intros y Hy. apply tc_flip in Hy. by apply (Hacyc y).
  - exists (fmap (λ l, id (heap s l)) (items s)). intros y Hy.
    apply tc_flip in Hy.
    assert (∃ z, par s y z) as (z & l & Hl & <- & _).
    { inversion Hy; eauto. }
    by apply (list_elem_of_fmap_2 (λ l, id (heap s l))).
Qed.

Lemma par_wf_up x : sn (par s) x.
Proof.
  apply tc_finite_sn.
  - intros y Hy. by apply (Hacyc y).
  - exists (omap (λ l, parent (heap s l)) (items s)). intros y Hy.
    apply tc_last in Hy.
    assert (∃ z, par s z y) as (z & l & Hl & _ & Hp).
    { destruct Hy as [?|(? & _ & ?)]; eauto. }
    apply list_elem_of_omap. eauto.
Qed.
End Forest.

(** ** Depth-first traversal *)

Lemma getAllChildren_loop_step n s st x res :
  getAllChildren_loop (S n) s (st ++ [x]) res
  = getAllChildren_loop n s
      (st ++ fmap (λ c, id (heap s c)) (getChildren s x))
      (res ++ getChildren s x).
Proof. cbn [getAllChildren_loop]. by rewrite pop_snoc, visitChildren_eq. Qed.

Lemma getAllChildren_loop_mono n m s st res r :
  getAllChildren_loop n s st res = Some r →
  getAllChildren_loop (n + m) s st res = Some r.
Proof.
  revert st res. induction n as [|n IH]; intros st res; [done|].
  destruct st as [|x st _] using rev_ind; [done|].
  change (S n + m)%nat with (S (n + m)).
  rewrite !getAllChildren_loop_step. apply IH.
Qed.

Section Traversal.
Variable s : TreeStore.
Hypothesis I : StoreInv s.
Hypothesis Hacyc : Acyclic s.

Lemma forest_runs x cs :
  (∀ c, c ∈ cs → c ∈ items s ∧ parent (heap s c) = Some x) →
  NoDup cs →
  (∀ c, c ∈ cs → ∃ n out, SubtreeOut s (id (heap s c)) out
                          ∧ runs s n [id (heap s c)] out) →
  ∃ n out, ForestOut s cs out
           ∧ runs s n (fmap (λ c, id (heap s c)) cs) out.
Proof.
  induction cs as [|c cs IH] using rev_ind; intros Hcs Hnd Hsub.
  - exists 0%nat, []. split.
    + split; [|split; [constructor|]].
      * intros l. split; [by intros ?%elem_of_nil|].
        by intros (c & ?%elem_of_nil & _).
      * by intros a b ?%elem_of_nil.
    + intros m st res. by rewrite !app_nil_r.
  - apply NoDup_app in Hnd as (Hnd & Hfresh & _).
    destruct IH as (n' & out' & (Hmem' & Hnd' & Hord') & Hrun').
    { intros c' Hc'. apply Hcs, elem_of_app. by left. }
    { done. }
    { intros c' Hc'. apply Hsub, elem_of_app. by left. }
    destruct (Hsub c) as (nc & outc & (Hmemc & Hndc & Hordc) & Hrunc).
    { apply elem_of_app. right. by left. }
    exists (nc + n')%nat, (outc ++ out'). split.
    + split; [|split].
      * intros l. rewrite elem_of_app, Hmemc, Hmem'. split.
        -- intros [H|(c' & Hc' & H)].
           ++ exists c. split; [|done]. apply elem_of_app. right. by left.
           ++ exists c'. split; [|done]. apply elem_of_app. by left.
        -- intros (c' & [Hc'|Hc']%elem_of_app & H).
           ++ right. eauto.
           ++ apply list_elem_of_singleton in Hc'. subst. by left.
      * apply NoDup_app. split; [done|]. split; [|done].
        intros l Hl Hl'. apply Hmemc in Hl as [_ Hl].
        apply Hmem' in Hl' as (c' & Hc' & _ & Hl').
        assert (c' = c) as ->.
        { destruct (Hcs c') as [? ?]; [apply elem_of_app; by left|].
          destruct (Hcs c) as [? ?]; [apply elem_of_app; right; by left|].
          by apply (siblings_disjoint s I Hacyc x c' c l). }
        apply (Hfresh c Hc'). by left.
      * intros a b [Ha|Ha]%elem_of_app Hb.
        -- apply before_app_l. by apply Hordc.
        -- apply before_app_r. by apply Hord'.
    + intros m st res. rewrite fmap_app. simpl.
      rewrite (app_assoc st), <- (Nat.add_assoc nc n' m).
      rewrite Hrunc, Hrun'. by rewrite <- app_assoc.
Qed.

Lemma subtree_runs x :
  ∃ n out, SubtreeOut s x out ∧ runs s n [x] out.
Proof.
  induction (par_wf_down s Hacyc x) as [x _ IH].
  destruct (forest_runs x (getChildren s x)) as (n & out & (Hmem & Hnd & Hord) & Hrun).
  { intros c. apply getChildren_spec, I. }
  { apply getChildren_NoDup, I. }
  { intros c [Hc Hp]%(getChildren_spec s I). apply IH. by exists c. }
  exists (S n), (getChildren s x ++ out). split.
  - split; [|split].
    + intros l. rewrite elem_of_app, Hmem. split.
      * intros [[Hl Hp]%(getChildren_spec s I)|(c & [Hc Hp]%(getChildren_spec s I) & Hl & T)].
        -- split; [done|]. apply tc_once. by exists l.
        -- split; [done|]. eapply tc_r; [apply T|]. by exists c.
      * intros [Hl [H|(y & T & (c & Hc & <- & Hp))]%tc_last].
        -- left. apply (getChildren_spec s I). split; [done|].
           by apply (par_item s I l x).
        -- right. exists c. split; [by apply (getChildren_spec s I)|done].
    + apply NoDup_app. split; [apply getChildren_NoDup, I|]. split; [|done].
      intros l [Hl Hp]%(getChildren_spec s I) (c & [Hc Hcp]%(getChildren_spec s I) & _ & T)%Hmem.
      by apply (child_not_below_sibling s I Hacyc x l c).
    + intros a b [Ha|Ha]%elem_of_app Hb.
      * apply before_app; [done|]. apply Hmem. eauto.
      * apply before_app_r. by apply Hord.
  - intros m st res. change (S n + m)%nat with (S (n + m)).
    rewrite getAllChildren_loop_step, Hrun. by rewrite <- app_assoc.
Qed.

Lemma getAllChildren_total k :
  ∃ n out, SubtreeOut s k out
           ∧ ∀ fuel, (n ≤ fuel)%nat → getAllChildren fuel s k = Some out.
Proof.
  destruct (subtree_runs k) as (n & out & Hout & Hrun).
  exists (S n), out. split; [done|]. intros fuel Hfuel.
  replace fuel with (n + S (fuel - S n))%nat by lia.
  unfold getAllChildren. by rewrite (Hrun _ [] []).
Qed.
End Traversal.

Lemma getAllChildren_fuel_irrelevant fuel fuel' s k d d' :
  getAllChildren fuel s k = Some d → getAllChildren fuel' s k = Some d' →
  d = d'.
Proof.
  unfold getAllChildren. intros H H'.
  apply (getAllChildren_loop_mono fuel fuel') in H.
  apply (getAllChildren_loop_mono fuel' fuel) in H'.
  rewrite (Nat.add_comm fuel' fuel) in H'. congruence.
Qed.

(** ** Ancestor traversal *)

Lemma getAllParents_loop_path fuel s c res r :
  getAllParents_loop fuel s c res = Some r →
  ∃ path, r = res ++ path ∧ AncestorPath s c path.
Proof.
  revert c res. induction fuel as [|fuel IH]; intros c res; [done|]. simpl.
  destruct c as [k|].
  - destruct (idMap s !! k) as [l|] eqn:E.
    + intros (path & -> & Hp)%IH. exists (l :: path). split; [list_assoc|].
      by apply path_step.
    + intros [= <-]. exists []. split; [by rewrite app_nil_r|]. by apply path_absent.
  - intros [= <-]. exists []. split; [by rewrite app_nil_r|]. apply path_null.
Qed.

Lemma AncestorPath_links s c path i a b :
  AncestorPath s c path → path !! i = Some a → path !! S i = Some b →
  ∃ p, parent (heap s a) = Some p ∧ getItem s p = Some b.
Proof.
  intros H. revert i. induction H as [|k Hk|k l rest Hk H IH]; intros i Ha Hb; [done..|].
  destruct i as [|i]; simpl in *.
  - injection Ha as ->. inversion H as [E|k' Hk' E|k' l' rest' Hk' H' E]; subst; [done..|].
    simpl in Hb. injection Hb as ->. eauto.
  - by apply (IH i).
Qed.

Lemma AncestorPath_end s c path a :
  AncestorPath s c path → last path = Some a →
  parent (heap s a) = None
  ∨ ∃ p, parent (heap s a) = Some p ∧ getItem s p = None.
Proof.
  induction 1 as [|k Hk|k l rest Hk H IH]; intros Hl; [done..|].
  inversion H as [E|k' Hk' E|k' l' rest' Hk' H' E]; subst.
  - injection Hl as ->. by left.
  - injection Hl as ->. right. eauto.
  - apply IH. by rewrite <- Hl.
Qed.

Lemma getAllParents_loop_total s c :
  Indexed s → Acyclic s →
  ∃ n path, ∀ res fuel, (n ≤ fuel)%nat →
    getAllParents_loop fuel s c res = Some (res ++ path).
Proof.
  intros I Hacyc. destruct c as [k|].
  2:{ exists 1%nat, []. intros res [|fuel] ?; [lia|]. simpl. by rewrite app_nil_r. }
  induction (par_wf_up s Hacyc k) as [k _ IH].
  destruct (idMap s !! k) as [l|] eqn:E.
  2:{ exists 1%nat, []. intros res [|fuel] ?; [lia|]. simpl. by rewrite E, app_nil_r. }
  destruct (parent (heap s l)) as [p|] eqn:Hp.
  - destruct (IH p) as (n & path & Hrun).
    { apply (idx_idMap s I) in E as [Hl <-]. by exists l. }
    exists (S n), (l :: path). intros res [|fuel] ?; [lia|]. simpl.
    rewrite E, Hp, Hrun by lia. f_equal. list_assoc.
  - exists 2%nat, [l]. intros res [|[|fuel]] ?; [lia..|]. simpl. by rewrite E, Hp.
Qed.

Lemma reachesCycle_step s k :
  reachesCycle s k →
  ∃ l p, idMap s !! k = Some l ∧ parent (heap s l) = Some p ∧ reachesCycle s p.
Proof.
  intros (c & Hkc & Hcc).
  assert (tc (parentOf s) k c) as T.
  { apply rtc_tc in Hkc as [->|?]; done. }
  assert (∃ p, parentOf s k p ∧ rtc (parentOf s) p c) as (p & Hkp & Hpc).
  { inversion T as [? ? H1|? w ? H1 H2]; subst.
    - exists c. split; [done|]. apply rtc_refl.
    - exists w. split; [done|]. by apply tc_rtc. }
  pose proof Hkp as (l & Hl & Hp).
  exists l, p. split; [done|]. split; [done|]. by exists c.
Qed.

Lemma getAllParents_loop_diverges s k :
  reachesCycle s k →
  ∀ fuel res, getAllParents_loop fuel s (Some k) res = None.
Proof.
  intros Hk fuel. revert k Hk. induction fuel as [|fuel IH]; intros k Hk res; [done|].
  destruct (reachesCycle_step s k Hk) as (l & p & E & Hp & Hcyc).
  simpl. rewrite E, Hp. by apply IH.
Qed.

Lemma par_parentOf s x y : StoreInv s → par s x y → parentOf s x y.
Proof.
  intros I (l & Hl & E & Hp). exists l. split; [|done].
  by apply (inv_idMap s I).
Qed.

Lemma on_cycle_reachesCycle s k :
  StoreInv s → tc (par s) k k → reachesCycle s k.
Proof.
  intros I T. exists k. split; [apply rtc_refl|].
  assert (∀ x y, tc (par s) x y → tc (parentOf s) x y) as Htc.
  { induction 1 as [x y H|x y z H _ IH].
    - by apply tc_once, par_parentOf.
    - eapply tc_l; [by apply par_parentOf|done]. }
  by apply Htc.
Qed.

(** Termination of the descendant traversal needs only the children index. *)
Section Termination.
Variable s : TreeStore.
Hypothesis Hc : childrenMap s = rebuildChildren (heap s) (items s).
Hypothesis Hacyc : Acyclic s.

Lemma forest_terminates (cs : list loc) :
  (∀ c, c ∈ cs → ∃ n out, runs s n [id (heap s c)] out) →
  ∃ n out, runs s n (fmap (λ c, id (heap s c)) cs) out.
Proof.
  induction cs as [|c cs IH] using rev_ind; intros Hsub.
  - exists 0%nat, []. intros m st res. by rewrite !app_nil_r.
  - destruct IH as (n' & out' & Hrun').
    { intros c' Hc'. apply Hsub, elem_of_app. by left. }
    destruct (Hsub c) as (nc & outc & Hrunc).
    { apply elem_of_app. right. by left. }
    exists (nc + n')%nat, (outc ++ out'). intros m st res.
    rewrite fmap_app. simpl.
    rewrite (app_assoc st), <- (Nat.add_assoc nc n' m).
    rewrite Hrunc, Hrun'. by rewrite <- app_assoc.
Qed.

Lemma subtree_terminates x : ∃ n out, runs s n [x] out.
Proof.
  induction (par_wf_down s Hacyc x) as [x _ IH].
  destruct (forest_terminates (getChildren s x)) as (n & out & Hrun).
  { intros c [Hin Hp]%(getChildren_elem s x c Hc). apply IH. by exists c. }
  exists (S n), (getChildren s x ++ out). intros m st res.
  change (S n + m)%nat with (S (n + m)).
  rewrite getAllChildren_loop_step, Hrun. by rewrite <- app_assoc.
Qed.

Lemma getAllChildren_terminates k :
  ∃ n out, ∀ fuel, (n ≤ fuel)%nat → getAllChildren fuel s k = Some out.
Proof.
  destruct (subtree_terminates k) as (n & out & Hrun).
  exists (S n), out. intros fuel Hfuel.
  replace fuel with (n + S (fuel - S n))%nat by lia.
  unfold getAllChildren. by rewrite (Hrun _ [] []).
Qed.
End Termination.

Lemma getAllParents_loop_mono n m s c res r :
  getAllParents_loop n s c res = Some r →
  getAllParents_loop (n + m) s c res = Some r.
Proof.
  revert c res. induction n as [|n IH]; intros c res; [done|]. simpl.
  destruct c as [k|]; [|done]. destruct (idMap s !! k); [apply IH|done].
Qed.

(** ** Further facts about the descendant traversal *)

Lemma getAllChildren_loop_extends fuel s st res r :
  getAllChildren_loop fuel s st res = Some r → ∃ t, r = res ++ t.
Proof.
  revert st res. induction fuel as [|fuel IH]; intros st res; [done|].
  destruct st as [|x st _] using rev_ind.
  - intros [= <-]. exists []. by rewrite app_nil_r.
  - rewrite getAllChildren_loop_step. intros (t & ->)%IH.
    exists (getChildren s x ++ t). list_assoc.
Qed.

Lemma getAllChildren_loop_items fuel s st res r :
  childrenMap s = rebuildChildren (heap s) (items s) →
  getAllChildren_loop fuel s st res = Some r →
  (∀ l, l ∈ res → l ∈ items s) → ∀ l, l ∈ r → l ∈ items s.
Proof.
  intros Hc. revert st res. induction fuel as [|fuel IH]; intros st res; [done|].
  destruct st as [|x st _] using rev_ind.
  - by intros [= <-].
  - rewrite getAllChildren_loop_step. intros H Hres. apply (IH _ _ H).
    intros l [Hl|Hl]%elem_of_app; [by apply Hres|].
    rewrite (getChildren_inv s x Hc) in Hl. by apply elem_of_childrenOf in Hl as [? _].
Qed.

Lemma getAllChildren_S fuel s k :
  getAllChildren (S fuel) s k
  = getAllChildren_loop fuel s
      (fmap (λ c, id (heap s c)) (getChildren s k)) (getChildren s k).
Proof. exact (getAllChildren_loop_step fuel s [] k []). Qed.

Lemma getAllChildren_children fuel s k d :
  getAllChildren fuel s k = Some d → ∀ l, l ∈ getChildren s k → l ∈ d.
Proof.
  destruct fuel as [|fuel]; [done|]. rewrite getAllChildren_S.
  intros (t & ->)%getAllChildren_loop_extends l Hl. apply elem_of_app. by left.
Qed.

Lemma getAllChildren_leaf fuel s k d :
  getAllChildren fuel s k = Some d → getChildren s k = [] → d = [].
Proof.
  destruct fuel as [|fuel]; [done|]. rewrite getAllChildren_S. intros H E.
  rewrite E in H. simpl in H. destruct fuel; [done|]. simpl in H. congruence.
Qed.

Lemma getAllChildren_leaf_run fuel s k :
  (2 ≤ fuel)%nat → getChildren s k = [] → getAllChildren fuel s k = Some [].
Proof.
  intros Hf E. destruct fuel as [|[|fuel]]; [lia..|].
  by rewrite getAllChildren_S, E.
Qed.

Lemma getAllChildren_fuel fuel s k d :
  getAllChildren fuel s k = Some d → (2 ≤ fuel)%nat.
Proof.
  destruct fuel as [|[|fuel]]; [done| |lia].
  by rewrite getAllChildren_S.
Qed.

Lemma filter_ext_in {A} (P Q : A → Prop)
  `{∀ x, Decision (P x)} `{∀ x, Decision (Q x)} (l : list A) :
  (∀ x, x ∈ l → P x ↔ Q x) → filter P l = filter Q l.
Proof.
  induction l as [|a l IH]; intros HPQ; [done|].
  rewrite !filter_cons. rewrite IH by (intros x Hx; apply HPQ; by right).
  destruct (decide (P a)) as [HP|HP], (decide (Q a)) as [HQ|HQ]; try done.
  - destruct HQ. apply HPQ; [by left|done].
  - destruct HP. apply HPQ; [by left|done].
Qed.

Lemma filter_all {A} (P : A → Prop) `{∀ x, Decision (P x)} (l : list A) :
  (∀ x, x ∈ l → P x) → filter P l = l.
Proof.
  induction l as [|a l IH]; intros HP; [done|].
  rewrite filter_cons, decide_True by (apply HP; by left).
  f_equal. apply IH. intros x Hx. apply HP. by right.
Qed.

Lemma acyclic_of_rank s (rank : Key → nat) :
  (∀ l p, l ∈ items s → parent (heap s l) = Some p →
          (rank p < rank (id (heap s l)))%nat) →
  Acyclic s.
Proof.
  intros Hr.
  assert (∀ x y, tc (par s) x y → (rank y < rank x)%nat) as Htc.
  { induction 1 as [x y (l & Hl & <- & Hp)|x y z (l & Hl & <- & Hp) _ IH].
    - by apply Hr.
    - specialize (Hr l y Hl Hp). lia. }
  intros x Hx. apply Htc in Hx. lia.
Qed.

Lemma StoreInv_UniqueIds s : StoreInv s → UniqueIds s.
Proof.
  intros I i j a b Ha Hb E.
  apply (NoDup_lookup _ i j (id (heap s a)) (inv_unique s I)).
  - by rewrite list_lookup_fmap, Ha.
  - by rewrite list_lookup_fmap, Hb, E.
Qed.

Lemma rebuild_ChildrenExact s :
  childrenMap s = rebuildChildren (heap s) (items s) → ChildrenExact s.
Proof.
  intros E p (l & Hl & Hp). rewrite E, rebuildChildren_lookup.
  destruct (childrenOf (heap s) (items s) p) eqn:Hc; [|done].
  assert (l ∈ childrenOf (heap s) (items s) p) as Hin by by apply elem_of_childrenOf.
  rewrite Hc in Hin. by apply elem_of_nil in Hin.
Qed.

Lemma NoDup_by_decide {A} `{EqDecision A} (l : list A) :
  bool_decide (NoDup l) = true → NoDup l.
Proof. apply bool_decide_eq_true_1. Qed.

Lemma fixture_inv : StoreInv fixture.
Proof. apply new_inv, NoDup_by_decide. vm_compute. reflexivity. Qed.

Lemma fixture_acyclic : Acyclic fixture.
Proof.
  apply (acyclic_of_rank fixture keyRank). intros l p Hl Hp.
  unfold fixture, new in Hl. cbn [items] in Hl.
  repeat (apply elem_of_cons in Hl as [->|Hl]);
    [..|by apply elem_of_nil in Hl];
    vm_compute in Hp; try discriminate; injection Hp as <-; vm_compute; lia.
Qed.

Lemma brokenStore_inv : StoreInv brokenStore.
Proof. apply new_inv, NoDup_by_decide. vm_compute. reflexivity. Qed.

Lemma brokenStore_acyclic : Acyclic brokenStore.
Proof.
  apply (acyclic_of_rank brokenStore keyRank). intros l p Hl Hp.
  unfold brokenStore, new in Hl. cbn [items] in Hl.
  repeat (apply elem_of_cons in Hl as [->|Hl]);
    [..|by apply elem_of_nil in Hl];
    vm_compute in Hp; try discriminate; injection Hp as <-; vm_compute; lia.
Qed.


(** ** Traversals that meet a cycle *)

Lemma tc_mono {A} (R R' : relation A) x y :
  (∀ a b, R a b → R' a b) → tc R x y → tc R' x y.
Proof.
  intros Hsub. induction 1 as [x y H|x y z H _ IH].
  - by apply tc_once, Hsub.
  - eapply tc_l; [by apply Hsub|done].
Qed.

Lemma aboveCycle_child s x :
  childrenMap s = rebuildChildren (heap s) (items s) →
  aboveCycle s x →
  ∃ c, c ∈ getChildren s x ∧ aboveCycle s (id (heap s c)).
Proof.
  intros Hc (c & Hcc & [H|(y & Hcy & H)]%tc_last).
  - destruct H as (l & Hl & <- & Hp). exists l.
    split; [by apply (getChildren_elem s x l Hc)|]. by exists (id (heap s l)).
  - destruct H as (l & Hl & <- & Hp). exists l.
    split; [by apply (getChildren_elem s x l Hc)|]. by exists c.
Qed.

Lemma getAllChildren_loop_diverges s :
  childrenMap s = rebuildChildren (heap s) (items s) →
  ∀ fuel stack res,
    (∃ x, x ∈ stack ∧ aboveCycle s x) →
    getAllChildren_loop fuel s stack res = None.
Proof.
  intros Hc fuel. induction fuel as [|fuel IH]; intros stack res (x & Hx & Hcyc); [done|].
  destruct stack as [|top st _] using rev_ind; [by apply elem_of_nil in Hx|].
  rewrite getAllChildren_loop_step. apply IH.
  apply elem_of_app in Hx as [Hx|Hx%list_elem_of_singleton].
  - exists x. split; [|done]. apply elem_of_app. by left.
  - subst x. destruct (aboveCycle_child s top Hc Hcyc) as (c & Hin & Hc').
    exists (id (heap s c)). split; [|done]. apply elem_of_app. right.
    by apply (list_elem_of_fmap_2 (λ c, id (heap s c))).
Qed.

(** ** Walks that meet no cycle *)

Lemma walkFrom_tc s k x y :
  tc (walkFrom s k) x y → rtc (parentOf s) k x ∧ tc (parentOf s) x y.
Proof.
  induction 1 as [x y [Hk H]|x y z [Hk H] _ [_ IH]].
  - split; [done|]. by apply tc_once.
  - split; [done|]. by eapply tc_l.
Qed.

Lemma walk_sn s k : ¬ reachesCycle s k → sn (walkFrom s k) k.
Proof.
  intros Hno. apply tc_finite_sn.
  - intros x [Hk Hx]%walkFrom_tc. apply Hno. by exists x.
  - exists (omap (λ kl, parent (heap s kl.2)) (map_to_list (idMap s))).
    intros y Hy.
    assert (∃ x, parentOf s x y) as (x & l & Hl & Hp).
    { destruct (tc_last _ _ _ Hy) as [[_ ?]|(? & _ & [_ ?])]; eauto. }
    apply list_elem_of_omap. exists (x, l). split; [|done].
    by apply elem_of_map_to_list.
Qed.

Lemma getAllParents_loop_total_walk s k :
  ¬ reachesCycle s k →
  ∃ n path, ∀ res fuel, (n ≤ fuel)%nat →
    getAllParents_loop fuel s (Some k) res = Some (res ++ path).
Proof.
  intros Hno.
  assert (∀ x, sn (walkFrom s k) x → rtc (parentOf s) k x →
            ∃ n path, ∀ res fuel, (n ≤ fuel)%nat →
              getAllParents_loop fuel s (Some x) res = Some (res ++ path))
    as Hgen.
  { induction 1 as [x _ IH]. intros Hk.
    destruct (idMap s !! x) as [l|] eqn:E.
    2:{ exists 1%nat, []. intros res [|fuel] ?; [lia|]. simpl.
        by rewrite E, app_nil_r. }
    destruct (parent (heap s l)) as [p|] eqn:Hp.
    - assert (parentOf s x p) as Hxp by by exists l.
      destruct (IH p) as (n & path & Hrun).
      { by split. }
      { eapply rtc_r; [exact Hk|exact Hxp]. }
      exists (S n), (l :: path). intros res [|fuel] ?; [lia|]. simpl.
      rewrite E, Hp, Hrun by lia. f_equal. list_assoc.
    - exists 2%nat, [l]. intros res [|[|fuel]] ?; [lia..|]. simpl.
      by rewrite E, Hp. }
  apply Hgen; [by apply walk_sn|apply rtc_refl].
Qed.

Lemma acyclic_no_reachesCycle s k :
  Indexed s → Acyclic s → ¬ reachesCycle s k.
Proof.
  intros X Hacyc (c & _ & Hc). apply (Hacyc c).
  apply (tc_mono (parentOf s) (par s)); [|done].
  intros a b (l & Hl & Hp). apply (idx_idMap s X) in Hl as [Hl <-].
  by exists l.
Qed.

Lemma acyclic_not_aboveCycle s k : Acyclic s → ¬ aboveCycle s k.
Proof. intros Hacyc (c & Hc & _). by apply (Hacyc c). Qed.

Lemma descentFrom_tc s k x y :
  tc (descentFrom s k) x y → rtc (par s) x k ∧ tc (par s) y x.
Proof.
  induction 1 as [x y [Hk H]|x y z [Hk H] _ [_ IH]].
  - split; [done|]. by apply tc_once.
  - split; [done|]. eapply tc_r; [exact IH|exact H].
Qed.

Lemma descent_sn s k : ¬ aboveCycle s k → sn (descentFrom s k) k.
Proof.
  intros Hno. apply tc_finite_sn.
  - intros x [Hk Hx]%descentFrom_tc. apply Hno. exists x. split; [done|].
    apply rtc_tc in Hk as [->|?]; done.
  - exists (fmap (λ l, id (heap s l)) (items s)). intros y Hy.
    assert (∃ x, par s y x) as (x & l & Hl & <- & _).
    { destruct (tc_last _ _ _ Hy) as [[_ ?]|(? & _ & [_ ?])]; eauto. }
    by apply (list_elem_of_fmap_2 (λ l, id (heap s l))).
Qed.

Lemma getAllChildren_terminates_below s k :
  childrenMap s = rebuildChildren (heap s) (items s) →
  ¬ aboveCycle s k →
  ∃ n out, ∀ fuel, (n ≤ fuel)%nat → getAllChildren fuel s k = Some out.
Proof.
  intros Hc Hno.
  assert (∀ x, sn (descentFrom s k) x → rtc (par s) x k →
            ∃ n out, runs s n [x] out) as Hgen.
  { induction 1 as [x _ IH]. intros Hk.
    destruct (forest_terminates s (getChildren s x)) as (n & out & Hrun).
    { intros c [Hin Hp]%(getChildren_elem s x c Hc).
      assert (par s (id (heap s c)) x) as Hcx by by exists c.
      apply IH; [by split|]. eapply rtc_l; [exact Hcx|exact Hk]. }
    exists (S n), (getChildren s x ++ out). intros m st res.
    change (S n + m)%nat with (S (n + m)).
    rewrite getAllChildren_loop_step, Hrun. by rewrite <- app_assoc. }
  destruct (Hgen k (descent_sn s k Hno) (rtc_refl _ _)) as (n & out & Hrun).
  exists (S n), out. intros fuel Hfuel.
  replace fuel with (n + S (fuel - S n))%nat by lia.
  unfold getAllChildren. by rewrite (Hrun _ [] []).
Qed.

(** ** The loops with and without the array limit *)

Lemma full_false {A} (a : list A) :
  full a = false ↔ (N.of_nat (length a) < arrayLimit)%N.
Proof. unfold full. apply N.leb_gt. Qed.

Lemma full_true {A} (a : list A) :
  full a = true ↔ (arrayLimit ≤ N.of_nat (length a))%N.
Proof. unfold full. apply N.leb_le. Qed.

Lemma length_snoc_N {A} (a : list A) (x : A) :
  N.of_nat (length (a ++ [x])) = (N.of_nat (length a) + 1)%N.
Proof. rewrite length_app. simpl. lia. Qed.

Lemma getAllParents_limited_loop_Finished fuel s c res r :
  getAllParents_limited_loop fuel s c res = Finished r →
  getAllParents_loop fuel s c res = Some r.
Proof.
  revert c res. induction fuel as [|fuel IH]; intros c res; [done|]. simpl.
  destruct c as [k|]; [|by intros [= <-]].
  destruct (idMap s !! k); [|by intros [= <-]].
  destruct (full res); [done|]. apply IH.
Qed.

Lemma getAllParents_limited_loop_fits fuel s c res r :
  getAllParents_loop fuel s c res = Some r →
  (N.of_nat (length r) ≤ arrayLimit)%N →
  getAllParents_limited_loop fuel s c res = Finished r.
Proof.
  revert c res. induction fuel as [|fuel IH]; intros c res; [done|]. simpl.
  destruct c as [k|]; [|by intros [= <-]].
  destruct (idMap s !! k) as [l|]; [|by intros [= <-]].
  intros H Hfit. rewrite (proj2 (full_false res)); [by apply IH|].
  destruct (getAllParents_loop_path _ _ _ _ _ H) as (path & -> & _).
  rewrite !length_app in Hfit. cbn [length] in Hfit. lia.
Qed.

Lemma getAllParents_limited_never_Finished s k :
  reachesCycle s k →
  ∀ fuel r, getAllParents_limited fuel s k ≠ Finished r.
Proof.
  intros Hk fuel r H. apply getAllParents_limited_loop_Finished in H.
  by rewrite (getAllParents_loop_diverges s k Hk) in H.
Qed.

Lemma getAllParents_limited_loop_throws s m :
  ∀ k res, reachesCycle s k →
    (N.of_nat (length res) + N.of_nat m = arrayLimit)%N →
    ∀ fuel, (S m ≤ fuel)%nat →
      getAllParents_limited_loop fuel s (Some k) res = RangeError.
Proof.
  induction m as [|m IH]; intros k res Hk Hlen fuel Hfuel;
    (destruct fuel as [|fuel]; [lia|]);
    destruct (reachesCycle_step s k Hk) as (l & p & E & Hp & Hcyc);
    cbn [getAllParents_limited_loop]; rewrite E.
  - rewrite (proj2 (full_true res)); [done|]. lia.
  - rewrite (proj2 (full_false res)) by lia. rewrite Hp.
    apply IH; [done| |lia]. rewrite length_snoc_N. lia.
Qed.

Lemma getAllParents_limited_throws s k :
  reachesCycle s k →
  ∃ n, ∀ fuel, (n ≤ fuel)%nat → getAllParents_limited fuel s k = RangeError.
Proof.
  intros Hk. exists (S (N.to_nat arrayLimit)). intros fuel Hfuel.
  apply (getAllParents_limited_loop_throws s (N.to_nat arrayLimit)); [done| |done].
  cbn [length]. by rewrite N2Nat.id.
Qed.

Lemma visitChildren_limited_Some h cs r st rs :
  visitChildren_limited h cs (r, st) = Some rs →
  rs = (r ++ cs, st ++ fmap (λ c, id (h c)) cs)
  ∧ ((N.of_nat (length r) ≤ arrayLimit)%N →
     (N.of_nat (length (r ++ cs)) ≤ arrayLimit)%N).
Proof.
  revert r st. induction cs as [|c cs IH]; intros r st.
  - intros [= <-]. by rewrite !app_nil_r.
  - cbn [visitChildren_limited fst snd].
    destruct (full r) eqn:Hr; [done|]. destruct (full st); [done|].
    intros [-> Hb]%IH. apply full_false in Hr. split; [list_assoc|].
    intros _. rewrite (cons_middle c r cs), app_assoc. apply Hb.
    rewrite length_snoc_N. lia.
Qed.

Lemma visitChildren_limited_fits h cs r st :
  (N.of_nat (length (r ++ cs)) ≤ arrayLimit)%N →
  (N.of_nat (length (st ++ fmap (λ c, id (h c)) cs)) ≤ arrayLimit)%N →
  visitChildren_limited h cs (r, st)
  = Some (r ++ cs, st ++ fmap (λ c, id (h c)) cs).
Proof.
  revert r st. induction cs as [|c cs IH]; intros r st Hr Hst.
  - by rewrite !app_nil_r.
  - cbn [visitChildren_limited fst snd].
    rewrite length_app in Hr. rewrite length_app, length_fmap in Hst.
    cbn [length] in Hr, Hst.
    rewrite (proj2 (full_false r)), (proj2 (full_false st)) by lia.
    rewrite IH.
    + f_equal. f_equal; list_assoc.
    + rewrite !length_app. cbn [length]. lia.
    + rewrite !length_app, length_fmap. cbn [length]. lia.
Qed.

Lemma getAllChildren_limited_loop_Finished fuel s st res r :
  getAllChildren_limited_loop fuel s st res = Finished r →
  getAllChildren_loop fuel s st res = Some r.
Proof.
  revert st res. induction fuel as [|fuel IH]; intros st res; [done|].
  destruct st as [|top st _] using rev_ind; [by intros [= <-]|].
  rewrite getAllChildren_loop_step. cbn [getAllChildren_limited_loop].
  rewrite pop_snoc.
  destruct (visitChildren_limited _ _ _) as [rs|] eqn:E; [|done].
  apply visitChildren_limited_Some in E as [-> _]. apply IH.
Qed.

Lemma getAllChildren_limited_loop_fits fuel s st res r :
  getAllChildren_loop fuel s st res = Some r →
  (length st ≤ length res + 1)%nat →
  (N.of_nat (length r) ≤ arrayLimit)%N →
  getAllChildren_limited_loop fuel s st res = Finished r.
Proof.
  revert st res. induction fuel as [|fuel IH]; intros st res; [done|].
  destruct st as [|top st _] using rev_ind; [by intros [= <-]|].
  rewrite getAllChildren_loop_step. cbn [getAllChildren_limited_loop].
  rewrite pop_snoc. intros H Hst Hfit.
  destruct (getAllChildren_loop_extends _ _ _ _ _ H) as (t & ->).
  rewrite length_app in Hst. cbn [length] in Hst.
  rewrite !length_app in Hfit.
  rewrite visitChildren_limited_fits.
  - cbn [fst snd]. apply IH; [done| |by rewrite !length_app].
    rewrite !length_app, length_fmap. lia.
  - rewrite length_app. lia.
  - rewrite length_app, length_fmap. lia.
Qed.

Lemma getAllChildren_limited_never_Finished s k :
  childrenMap s = rebuildChildren (heap s) (items s) →
  aboveCycle s k →
  ∀ fuel r, getAllChildren_limited fuel s k ≠ Finished r.
Proof.
  intros Hc Hk fuel r H. apply getAllChildren_limited_loop_Finished in H.
  rewrite (getAllChildren_loop_diverges s Hc) in H; [done|].
  exists k. split; [by left|done].
Qed.

Lemma getAllChildren_limited_loop_throws s :
  childrenMap s = rebuildChildren (heap s) (items s) →
  ∀ m stack res,
    (∃ x, x ∈ stack ∧ aboveCycle s x) →
    (N.of_nat (length res) + N.of_nat m = arrayLimit)%N →
    ∃ n, ∀ fuel, (n ≤ fuel)%nat →
      getAllChildren_limited_loop fuel s stack res = RangeError.
Proof.
  intros Hc m. induction (lt_wf m) as [m _ IHm].
  intros stack. induction stack as [|top st IHst] using rev_ind;
    intros res (x & Hx & Hcyc) Hlen; [by apply elem_of_nil in Hx|].
  destruct (visitChildren_limited (heap s) (getChildren s top) (res, st))
    as [rs|] eqn:E.
  2:{ exists 1%nat. intros [|fuel] ?; [lia|].
      cbn [getAllChildren_limited_loop]. by rewrite pop_snoc, E. }
  destruct (visitChildren_limited_Some _ _ _ _ _ E) as [-> Hfit].
  assert (∃ y, y ∈ st ++ fmap (λ c, id (heap s c)) (getChildren s top)
               ∧ aboveCycle s y) as Hnext.
  { apply elem_of_app in Hx as [Hx|Hx%list_elem_of_singleton].
    - exists x. split; [|done]. apply elem_of_app. by left.
    - subst x. destruct (aboveCycle_child s top Hc Hcyc) as (c & Hin & Hc').
      exists (id (heap s c)). split; [|done]. apply elem_of_app. right.
      by apply (list_elem_of_fmap_2 (λ c, id (heap s c))). }
  assert (∃ n, ∀ fuel, (n ≤ fuel)%nat →
            getAllChildren_limited_loop fuel s
              (st ++ fmap (λ c, id (heap s c)) (getChildren s top))
              (res ++ getChildren s top) = RangeError) as (n & Hn).
  { destruct (getChildren s top) as [|c cs] eqn:Ecs.
    - cbn [fmap list_fmap] in *. rewrite ?app_nil_r in *. by apply IHst.
    - specialize (Hfit ltac:(lia)). rewrite length_app in Hfit.
      cbn [length] in Hfit.
      apply (IHm (m - S (length cs))%nat); [lia|done|].
      rewrite length_app. cbn [length]. lia. }
  exists (S n). intros [|fuel] ?; [lia|].
  cbn [getAllChildren_limited_loop]. rewrite pop_snoc, E. cbn [fst snd].
  apply Hn. lia.
Qed.

Lemma getAllChildren_limited_throws s k :
  childrenMap s = rebuildChildren (heap s) (items s) →
  aboveCycle s k →
  ∃ n, ∀ fuel, (n ≤ fuel)%nat → getAllChildren_limited fuel s k = RangeError.
Proof.
  intros Hc Hk.
  apply (getAllChildren_limited_loop_throws s Hc (N.to_nat arrayLimit)).
  - exists k. split; [by left|done].
  - cbn [length]. by rewrite N2Nat.id.
Qed.

(** ** The length of the results *)

Lemma AncestorPath_fun s c p1 p2 :
  AncestorPath s c p1 → AncestorPath s c p2 → p1 = p2.
Proof.
  intros H. revert p2. induction H as [|k Hk|k l rest Hk H IH]; intros p2 H2.
  - by inversion H2.
  - inversion H2; subst; [done|congruence].
  - inversion H2 as [|k' Hk'|k' l' rest' Hk' Hrest']; subst; [congruence|].
    assert (l' = l) as -> by congruence. f_equal. by apply IH.
Qed.

Lemma AncestorPath_suffix s c a l b :
  AncestorPath s c (a ++ l :: b) → AncestorPath s (parent (heap s l)) b.
Proof.
  revert c. induction a as [|x a IH]; intros c H.
  - by inversion H.
  - inversion H; subst. by eapply IH.
Qed.

Lemma AncestorPath_distinct s c path : AncestorPath s c path → NoDup path.
Proof.
  induction 1 as [|k Hk|k l rest Hk H IH]; [constructor..|].
  apply NoDup_cons. split; [|done].
  intros (a & b & ->)%list_elem_of_split.
  pose proof (AncestorPath_fun _ _ _ _ H (AncestorPath_suffix _ _ _ _ _ H)) as E.
  apply (f_equal length) in E. rewrite length_app in E. simpl in E. lia.
Qed.

Lemma AncestorPath_registered s c path a :
  AncestorPath s c path → a ∈ path → ∃ k, idMap s !! k = Some a.
Proof.
  induction 1 as [|k Hk|k l rest Hk H IH]; intros Ha;
    [by apply elem_of_nil in Ha..|].
  apply elem_of_cons in Ha as [->|Ha]; eauto.
Qed.

Lemma AncestorPath_length s c path :
  Indexed s → AncestorPath s c path → (length path ≤ length (items s))%nat.
Proof.
  intros X H. apply submseteq_length, NoDup_submseteq.
  - by apply (AncestorPath_distinct s c).
  - intros a (k & Hk)%(AncestorPath_registered s c path a H).
    by apply (idx_idMap s X) in Hk as [? _].
Qed.

Lemma getAllParents_limited_fits fuel s k path :
  Indexed s → (N.of_nat (length (items s)) ≤ arrayLimit)%N →
  getAllParents fuel s k = Some path →
  getAllParents_limited fuel s k = Finished path.
Proof.
  intros X Hfit H. apply getAllParents_limited_loop_fits; [done|].
  destruct (getAllParents_loop_path _ _ _ _ _ H) as (p & -> & Hp).
  pose proof (AncestorPath_length s (Some k) p X Hp). simpl. lia.
Qed.

Lemma getAllChildren_limited_loop_halts fuel s st res r :
  getAllChildren_loop fuel s st res = Some r →
  getAllChildren_limited_loop fuel s st res = Finished r
  ∨ getAllChildren_limited_loop fuel s st res = RangeError.
Proof.
  revert st res. induction fuel as [|fuel IH]; intros st res; [done|].
  destruct st as [|top st _] using rev_ind; [intros [= <-]; by left|].
  rewrite getAllChildren_loop_step. cbn [getAllChildren_limited_loop].
  rewrite pop_snoc. intros H.
  destruct (visitChildren_limited _ _ _) as [rs|] eqn:E; [|by right].
  apply visitChildren_limited_Some in E as [-> _]. by apply IH.
Qed.

Lemma getAllChildren_limited_fits fuel s k out :
  (∀ l, l ∈ out → l ∈ items s) → NoDup out →
  (N.of_nat (length (items s)) ≤ arrayLimit)%N →
  getAllChildren fuel s k = Some out →
  getAllChildren_limited fuel s k = Finished out.
Proof.
  intros Hsub Hnd Hfit H.
  apply getAllChildren_limited_loop_fits; [done|simpl; lia|].
  pose proof (submseteq_length _ _ (NoDup_submseteq _ _ Hnd Hsub)). lia.
Qed.

(** ** More stores *)

Lemma cycleStore_inv : StoreInv cycleStore.
Proof. apply new_inv, NoDup_by_decide. vm_compute. reflexivity. Qed.

Lemma cycleStore_reachesCycle : reachesCycle cycleStore (KStr "A").
Proof.
  exists (KStr "A"). split; [apply rtc_refl|].
  apply (tc_l _ _ (KStr "B")); [|apply tc_once].
  - by exists 1%positive.
  - by exists 2%positive.
Qed.

Lemma mixedStore_inv : StoreInv mixedStore.
Proof. apply new_inv, NoDup_by_decide. vm_compute. reflexivity. Qed.

Lemma mixedStore_cyclic : tc (par mixedStore) (KNum 1) (KNum 1).
Proof.
  apply tc_once. exists 1%positive. split; [apply list_elem_of_here|done].
Qed.

Lemma mixedStore_root_no_reachesCycle : ¬ reachesCycle mixedStore (KNum 2).
Proof.
  assert (∀ y, ¬ parentOf mixedStore (KNum 2) y) as Hroot.
  { intros y (l & Hl & Hp). vm_compute in Hl. injection Hl as <-. discriminate. }
  intros (c & [<-|(y & Hy & _)]%rtc_inv & Hc); [|by apply (Hroot y)].
  inversion Hc as [? ? H|? y ? H _]; subst; by apply (Hroot _ H).
Qed.

Lemma mixedStore_root_not_aboveCycle : ¬ aboveCycle mixedStore (KNum 2).
Proof.
  assert (∀ x, ¬ par mixedStore x (KNum 2)) as Hleaf.
  { intros x (l & Hl & _ & Hp). unfold mixedStore, new in Hl. cbn [items] in Hl.
    repeat (apply elem_of_cons in Hl as [->|Hl]);
      [..|by apply elem_of_nil in Hl]; discriminate. }
  intros (c & _ & [H|(y & _ & H)]%tc_last); by apply (Hleaf _ H).
Qed.

(** * Properties of the store *)

Lemma reachable_indexed s0 s : Indexed s0 → ReachableFrom s0 s → Indexed s.
Proof.
  intros H0. induction 1 as [|s item _ IH|s fuel k s' _ IH Hr|s item _ IH].
  - done.
  - by apply addItem_indexed.
  - by apply (removeItem_indexed fuel k s).
  - by apply updateItem_indexed.
Qed.

Lemma reachable_inv s0 s : StoreInv s0 → ReachableFrom s0 s → StoreInv s.
Proof.
  intros H0. induction 1 as [|s item _ IH|s fuel k s' _ IH Hr|s item _ IH].
  - done.
  - by apply addItem_inv.
  - by apply (removeItem_inv fuel k s).
  - by apply updateItem_inv.
Qed.

(** C1 (as stated, refuted): the constructor does not check its input, so a
    store built from two records that carry the same id has two records
    sharing an id, and only the later one is in the ID map. *)
Lemma constructor_keeps_duplicate_ids :
  ¬ UniqueIds twinStore ∧ ¬ IdMapExact twinStore.
Proof.
  split.
  - intros H. unfold UniqueIds in H.
    by specialize (H 0%nat 1%nat 1%positive 2%positive eq_refl eq_refl eq_refl).
  - intros H. destruct (H (KNum 1) 1%positive) as [_ H1].
    assert (1%positive ∈ items twinStore) as Hin by apply list_elem_of_here.
    specialize (H1 (conj Hin eq_refl)). vm_compute in H1. discriminate.
Qed.

(** C1 (amended): in every store obtained from [new TreeStore(input)] by any
    sequence of [addItem], [removeItem] and [updateItem] calls, the children
    map holds, for every parent value present in the sequence, exactly the
    records with that parent in sequence order, and every record of the ID
    map is a record of the sequence registered under its own id; and when
    the ids of the constructor's input are pairwise distinct, no two records
    of the store share an id and the ID map contains exactly the records of
    the sequence. *)
Theorem invariants_after_operations (h : Heap) (input : list loc) s :
  ReachableFrom (new h input) s →
  ChildrenExact s
  ∧ Indexed s
  ∧ (NoDup (fmap (λ l, id (h l)) input) →
     UniqueIds s ∧ IdMapExact s ∧ StoreInv s).
Proof.
  intros Hr.
  pose proof (reachable_indexed (new h input) s (new_indexed h input) Hr) as X.
  split; [|split].
  - apply rebuild_ChildrenExact, (idx_children s X).
  - done.
  - intros Hnd.
    assert (StoreInv s) as I by by apply (reachable_inv (new h input)); [apply new_inv|].
    split; [by apply StoreInv_UniqueIds|]. split; [|done].
    intros k l. apply (inv_idMap s I).
Qed.

Lemma invariants_after_operations_witness :
  ChildrenExact (addItem 9%positive (updateItem 9%positive movedStore).2).2
  ∧ UniqueIds (addItem 9%positive (updateItem 9%positive movedStore).2).2
  ∧ IdMapExact (addItem 9%positive (updateItem 9%positive movedStore).2).2.
Proof.
  destruct (invariants_after_operations movedHeap
              [1; 2; 3; 4; 5; 6; 7]%positive
              (addItem 9%positive (updateItem 9%positive movedStore).2).2)
    as (H1 & _ & H2).
  - apply reach_add, reach_update, reach_init.
  - split; [exact H1|].
    destruct H2 as (H2 & H3 & _); [|exact (conj H2 H3)].
    apply NoDup_by_decide. vm_compute. reflexivity.
Defined.

Lemma TreeStore_eq s s' :
  heap s' = heap s → items s' = items s → idMap s' = idMap s →
  childrenMap s' = childrenMap s → s' = s.
Proof. destruct s, s'; simpl. by intros -> -> -> ->. Qed.

Lemma removeItem_noop fuel k s :
  StoreInv s → (2 ≤ fuel)%nat →
  getItem s k = None → getChildren s k = [] →
  removeItem fuel k s = Some s.
Proof.
  intros I Hf Hk Hc.
  destruct (removeItem_of_descendants fuel k s [] (getAllChildren_leaf_run fuel s k Hf Hc))
    as [s' Hs'].
  rewrite Hs'. f_equal.
  destruct (removeItem_Some _ _ _ _ Hs') as (d & Hd & Hh & Hi & Hm & Hcm).
  rewrite (getAllChildren_leaf_run fuel s k Hf Hc) in Hd. injection Hd as <-.
  assert (items s' = items s) as Hi'.
  { rewrite Hi. apply filter_all. intros l Hl. rewrite elem_of_list_to_set.
    intros [E|[]%elem_of_nil]%elem_of_cons.
    apply (id_in_idMap s l I) in Hl. unfold getItem in Hk. congruence. }
  apply TreeStore_eq; [done|done| |].
  - rewrite Hm. simpl. by apply delete_id.
  - by rewrite Hcm, Hh, Hi', (inv_children s I).
Qed.

(** C2 (as stated, refuted): in the store of the test "should stop at missing
    parent" the id 98 is not present, yet [removeItem(98)] removes record 99,
    whose parent is 98. *)
Lemma removeItem_unknown_id_removes_orphans :
  StoreInv brokenStore
  ∧ getItem brokenStore (KNum 98) = None
  ∧ getAll brokenStore = [1; 2; 3; 4; 5; 6; 7; 8]%positive
  ∧ getAll <$> removeItem 3 (KNum 98) brokenStore
    = Some [1; 2; 3; 4; 5; 6; 7]%positive
  ∧ removeItem 3 (KNum 98) brokenStore ≠ Some brokenStore.
Proof.
  split; [apply brokenStore_inv|].
  assert (getAll <$> removeItem 3 (KNum 98) brokenStore
          = Some [1; 2; 3; 4; 5; 6; 7]%positive) as E by by vm_compute.
  split; [done|]. split; [done|]. split; [done|].
  intros E'. rewrite E' in E. discriminate.
Qed.

(** C2 (amended): in a store that satisfies the invariants, whenever the
    traversal of the subtree of [k] returns [d], [removeItem(k)] returns a
    store that keeps, in their order, exactly the records that neither have
    id [k] nor occur in [d], with the ID map restricted accordingly and the
    invariants intact; if [k] is not present and no record names [k] as its
    parent, the store is unchanged; a second [removeItem(k)] changes nothing.
    The traversal returns, with any fuel from some amount on, for every [k]
    that lies neither on a cycle of the parent relation nor above one. *)
Theorem removeItem_cascade s k (I : StoreInv s) :
  (∀ fuel d, getAllChildren fuel s k = Some d →
     ∃ s', removeItem fuel k s = Some s'
       ∧ heap s' = heap s
       ∧ getAll s' = filter (λ l, id (heap s l) ≠ k ∧ l ∉ d) (getAll s)
       ∧ (∀ k' l, getItem s' k' = Some l
                  ↔ getItem s k' = Some l ∧ k' ≠ k ∧ l ∉ d)
       ∧ StoreInv s'
       ∧ (getItem s k = None → getChildren s k = [] → s' = s)
       ∧ removeItem fuel k s' = Some s')
  ∧ (¬ aboveCycle s k →
     ∃ n d, ∀ fuel, (n ≤ fuel)%nat → getAllChildren fuel s k = Some d).
Proof.
  split.
  2:{ apply getAllChildren_terminates_below, (inv_children s I). }
  intros fuel d Hd.
  destruct (removeItem_of_descendants fuel k s d Hd) as [s' Hs'].
  exists s'. split; [done|].
  destruct (removeItem_Some _ _ _ _ Hs') as (d' & Hd' & Hh & Hi & Hm & Hcm).
  assert (d' = d) as -> by congruence. clear Hd'.
  pose proof (removeItem_inv _ _ _ _ I Hs') as I'.
  pose proof (getAllChildren_fuel _ _ _ _ Hd) as Hfuel.
  assert (∀ l, l ∈ d → l ∈ items s) as Hsub.
  { apply (getAllChildren_loop_items fuel s [k] [] d (inv_children s I) Hd).
    by intros l ?%elem_of_nil. }
  assert (∀ l, l ∈ items s → id (heap s l) ∈ fmap (λ i, id (heap s i)) d ↔ l ∈ d)
    as Hids.
  { intros l Hl. rewrite list_elem_of_fmap. split.
    - intros (l' & E & Hl'). by rewrite (item_of_id s I l l' Hl (Hsub l' Hl') E).
    - intros ?. by exists l. }
  assert (getAll s' = filter (λ l, id (heap s l) ≠ k ∧ l ∉ d) (getAll s)) as Hitems.
  { unfold getAll. rewrite Hi. apply filter_ext_in. intros l Hl.
    rewrite elem_of_list_to_set, elem_of_cons, (Hids l Hl). tauto. }
  assert (∀ k' l, getItem s' k' = Some l
                  ↔ getItem s k' = Some l ∧ k' ≠ k ∧ l ∉ d) as Hget.
  { intros k' l. unfold getItem. rewrite Hm, foldl_delete_lookup.
    case_decide as Hin.
    - split; [done|]. intros (Hl & Hne & Hnd). exfalso.
      apply (inv_idMap s I) in Hl as [Hl <-].
      apply elem_of_cons in Hin as [?|Hin]; [done|]. by apply Hids in Hin.
    - split; [|by intros (? & _ & _)]. intros Hl. split; [done|].
      apply (inv_idMap s I) in Hl as [Hl <-]. split.
      + intros E. apply Hin. rewrite E. by left.
      + intros Hld. apply Hin. right. by apply Hids. }
  split; [done|]. split; [done|]. split; [done|]. split; [done|]. split.
  - intros Hk Hc. rewrite (removeItem_noop fuel k s I Hfuel Hk Hc) in Hs'.
    by injection Hs' as <-.
  - apply (removeItem_noop fuel k s' I' Hfuel).
    + destruct (getItem s' k) as [l|] eqn:E; [|done].
      apply Hget in E as (_ & ? & _). done.
    + apply elem_of_nil_inv. intros l [Hl Hp]%(getChildren_spec s' I').
      unfold getAll in Hitems. rewrite Hitems in Hl.
      apply list_elem_of_filter in Hl as [[_ Hnd] Hl]. apply Hnd.
      apply (getAllChildren_children fuel s k d Hd).
      apply (getChildren_spec s I). split; [done|]. by rewrite <- Hh.
Qed.

Lemma removeItem_cascade_witness :
  (∃ s', removeItem 6 (KNum 2) fixture = Some s'
         ∧ getAll s' = [1; 3; 6; 7]%positive
         ∧ removeItem 6 (KNum 2) s' = Some s')
  ∧ (∃ n d, ∀ fuel, (n ≤ fuel)%nat →
        getAllChildren fuel fixture (KNum 2) = Some d)
  ∧ tc (par mixedStore) (KNum 1) (KNum 1)
  ∧ ∃ n d, ∀ fuel, (n ≤ fuel)%nat →
      getAllChildren fuel mixedStore (KNum 2) = Some d.
Proof.
  destruct (removeItem_cascade fixture (KNum 2) fixture_inv) as [H1 H2].
  split; [|split; [|split]].
  - destruct (H1 6%nat [4; 5]%positive)
      as (s' & Hs' & _ & Hi & _ & _ & _ & Hagain).
    + vm_compute. reflexivity.
    + exists s'. split; [exact Hs'|]. split; [|exact Hagain].
      rewrite Hi. vm_compute. reflexivity.
  - exact (H2 (acyclic_not_aboveCycle _ _ fixture_acyclic)).
  - exact mixedStore_cyclic.
  - exact (proj2 (removeItem_cascade mixedStore (KNum 2) mixedStore_inv)
             mixedStore_root_not_aboveCycle).
Defined.

(** C3 (as stated, refuted): an unknown id can be the parent of a record.  In
    the store of the test "should stop at missing parent" the id 98 is not
    present, and [getAllChildren(98)] returns record 99. *)
Lemma getAllChildren_unknown_id_with_orphans :
  StoreInv brokenStore
  ∧ Acyclic brokenStore
  ∧ getItem brokenStore (KNum 98) = None
  ∧ getAllChildren 3 brokenStore (KNum 98) = Some [8%positive]
  ∧ getAllChildren 3 brokenStore (KNum 98) ≠ Some [].
Proof.
  split; [apply brokenStore_inv|]. split; [apply brokenStore_acyclic|].
  by vm_compute.
Qed.

(** C3 (amended): in a store that satisfies the invariants and whose parent
    relation is acyclic, [getAllChildren(k)] returns, for every [k] and with
    enough fuel, one sequence (the same whatever the fuel) that contains
    exactly the strict descendants of [k], each once, never the record with
    id [k] itself, and every returned record before all of its own
    descendants; for an id that no record of the sequence names as its
    parent the result is empty. *)
Theorem getAllChildren_descendants s k (I : StoreInv s) (Hacyc : Acyclic s) :
  ∃ n out,
    (∀ fuel, (n ≤ fuel)%nat → getAllChildren fuel s k = Some out)
    ∧ (∀ fuel d, getAllChildren fuel s k = Some d → d = out)
    ∧ (∀ l, l ∈ out ↔ descendant s l k)
    ∧ NoDup out
    ∧ (∀ l, l ∈ out → id (heap s l) ≠ k)
    ∧ (∀ a b, a ∈ out → descendant s b (id (heap s a)) → before out a b)
    ∧ ((∀ l, l ∈ items s → parent (heap s l) ≠ Some k) → out = []).
Proof.
  destruct (getAllChildren_total s I Hacyc k) as (n & out & (Hmem & Hnd & Hord) & Hrun).
  exists (n + 2)%nat, out.
  split; [|split; [|split; [|split; [|split; [|split]]]]]; try done.
  - intros fuel Hf. apply Hrun. lia.
  - intros fuel d Hd.
    apply (getAllChildren_fuel_irrelevant fuel n s k d out Hd). by apply Hrun.
  - intros l [_ T]%Hmem E. rewrite E in T. by apply (Hacyc k).
  - intros Hleaf. apply (getAllChildren_leaf (n + 2) s k); [apply Hrun; lia|].
    apply elem_of_nil_inv. intros l [Hl Hp]%(getChildren_spec s I).
    by apply (Hleaf l).
Qed.

Lemma getAllChildren_descendants_witness :
  ∃ n out,
    (∀ fuel, (n ≤ fuel)%nat → getAllChildren fuel fixture (KNum 1) = Some out)
    ∧ (∀ fuel d, getAllChildren fuel fixture (KNum 1) = Some d → d = out)
    ∧ (∀ l, l ∈ out ↔ descendant fixture l (KNum 1))
    ∧ NoDup out
    ∧ (∀ l, l ∈ out → id (heap fixture l) ≠ KNum 1)
    ∧ (∀ a b, a ∈ out → descendant fixture b (id (heap fixture a)) →
              before out a b)
    ∧ ((∀ l, l ∈ items fixture → parent (heap fixture l) ≠ Some (KNum 1)) →
       out = []).
Proof.
  exact (getAllChildren_descendants fixture (KNum 1) fixture_inv fixture_acyclic).
Defined.

(** C4 (as stated, refuted): not every present id has a path.  In the store
    of the two records A (parent B) and B (parent A), which satisfies the
    invariants, the id A is present, and [getAllParents(A)] returns no path:
    the loop never finishes, and once the result array is full it fails with
    [RangeError]. *)
Lemma getAllParents_no_path_on_cycle :
  StoreInv cycleStore
  ∧ getItem cycleStore (KStr "A") = Some 1%positive
  ∧ (∀ fuel path,
       getAllParents_limited fuel cycleStore (KStr "A") ≠ Finished path)
  ∧ (∃ n, ∀ fuel, (n ≤ fuel)%nat →
       getAllParents_limited fuel cycleStore (KStr "A") = RangeError).
Proof.
  split; [apply cycleStore_inv|]. split; [done|]. split.
  - apply getAllParents_limited_never_Finished, cycleStore_reachesCycle.
  - apply getAllParents_limited_throws, cycleStore_reachesCycle.
Qed.

(** C4 (amended): whenever [getAllParents(k)] returns, the path is empty if
    [k] is not present; otherwise it starts with [getItem(k)], each further
    element is the record registered under the previous element's parent,
    and the last element has a null parent or a parent that is not present.
    For an id that is not present the traversal returns the empty sequence
    at once.  The traversal returns, with any fuel from some amount on, for
    every [k] whose ancestor walk does not lead into a cycle.  The loop with
    the limit on the length of an array returns nothing else, and it returns
    the same path in every store whose indexes are those of its sequence
    (every store the operations produce) and whose sequence is an array. *)
Theorem getAllParents_path s k :
  (∀ fuel path, getAllParents fuel s k = Some path →
     match getItem s k with
     | None => path = []
     | Some l => head path = Some l
     end
     ∧ (∀ i a b, path !! i = Some a → path !! S i = Some b →
          ∃ p, parent (heap s a) = Some p ∧ getItem s p = Some b)
     ∧ (∀ a, last path = Some a →
          parent (heap s a) = None
          ∨ ∃ p, parent (heap s a) = Some p ∧ getItem s p = None))
  ∧ (getItem s k = None →
     ∀ fuel, (1 ≤ fuel)%nat → getAllParents fuel s k = Some [])
  ∧ (¬ reachesCycle s k →
     ∃ n path, ∀ fuel, (n ≤ fuel)%nat → getAllParents fuel s k = Some path)
  ∧ (∀ fuel path, getAllParents_limited fuel s k = Finished path →
       getAllParents fuel s k = Some path)
  ∧ (Indexed s → (N.of_nat (length (items s)) ≤ arrayLimit)%N →
     ∀ fuel path, getAllParents fuel s k = Some path →
       getAllParents_limited fuel s k = Finished path).
Proof.
  split; [|split; [|split; [|split]]].
  2:{ intros Hk [|fuel] ?; [lia|]. unfold getItem in Hk.
      unfold getAllParents. simpl. by rewrite Hk. }
  3:{ intros fuel path. apply getAllParents_limited_loop_Finished. }
  3:{ intros X Hfit fuel path. by apply getAllParents_limited_fits. }
  - intros fuel path (p & -> & Hp)%getAllParents_loop_path. simpl.
    split; [|split].
    + unfold getItem. inversion Hp as [|k' Hk|k' l rest Hk Hrest]; subst.
      * by rewrite Hk.
      * by rewrite Hk.
    + intros i a b. by apply (AncestorPath_links s (Some k)).
    + intros a. by apply (AncestorPath_end s (Some k)).
  - intros Hno.
    destruct (getAllParents_loop_total_walk s k Hno) as (n & path & H).
    exists n, path. intros fuel Hf. apply (H [] fuel Hf).
Qed.

Lemma getAllParents_path_witness :
  (head [4; 2; 1]%positive = getItem fixture (KNum 4)
   ∧ (∀ i a b, [4; 2; 1]%positive !! i = Some a →
        [4; 2; 1]%positive !! S i = Some b →
        ∃ p, parent (heap fixture a) = Some p ∧ getItem fixture p = Some b)
   ∧ (∀ a, last [4; 2; 1]%positive = Some a →
        parent (heap fixture a) = None
        ∨ ∃ p, parent (heap fixture a) = Some p ∧ getItem fixture p = None))
  ∧ (∃ n path, ∀ fuel, (n ≤ fuel)%nat →
       getAllParents fuel mixedStore (KNum 2) = Some path)
  ∧ getAllParents_limited 4 fixture (KNum 4) = Finished [4; 2; 1]%positive.
Proof.
  destruct (getAllParents_path fixture (KNum 4)) as (H1 & _ & _ & _ & H4).
  split; [|split].
  - apply (H1 4%nat [4; 2; 1]%positive). vm_compute. reflexivity.
  - exact (proj1 (proj2 (proj2 (getAllParents_path mixedStore (KNum 2))))
             mixedStore_root_no_reachesCycle).
  - apply (H4 (StoreInv_Indexed fixture fixture_inv)).
    + vm_compute. discriminate.
    + vm_compute. reflexivity.
Defined.

(** C5: [addItem(record)] throws the already-exists error exactly when the
    record's id is present, and then leaves the store and the heap as they
    were; otherwise it returns, having appended the record to the sequence,
    registered it under its id without touching other ids, and, when the
    parent is non-null, appended it to that parent's children list (created
    if absent) without touching the other lists. *)
Theorem addItem_spec s item :
  let k := id (heap s item) in
  ((addItem item s).1 = Thrown (AlreadyExists k) ↔ is_Some (getItem s k))
  ∧ ((addItem item s).1 = Returned ↔ getItem s k = None)
  ∧ (is_Some (getItem s k) → (addItem item s).2 = s)
  ∧ (getItem s k = None →
     let s' := (addItem item s).2 in
     heap s' = heap s
     ∧ getAll s' = getAll s ++ [item]
     ∧ getItem s' k = Some item
     ∧ (∀ k', k' ≠ k → getItem s' k' = getItem s k')
     ∧ match parent (heap s item) with
       | None => childrenMap s' = childrenMap s
       | Some p =>
           getChildren s' p = getChildren s p ++ [item]
           ∧ childrenMap s' !! p = Some (getChildren s p ++ [item])
           ∧ ∀ q, q ≠ p → childrenMap s' !! q = childrenMap s !! q
       end).
Proof.
  intros k. unfold addItem, getItem. fold k.
  destruct (decide (is_Some (idMap s !! k))) as [Hk|Hk]; simpl.
  - split; [done|]. split; [|split; [done|]].
    + split; [done|]. intros E. rewrite E in Hk. by destruct Hk.
    + intros E. rewrite E in Hk. by destruct Hk.
  - assert (idMap s !! k = None) as Hnone.
    { destruct (idMap s !! k); [destruct Hk; eauto|done]. }
    split; [done|]. split; [done|]. split; [done|]. intros _.
    split; [done|]. split; [done|]. split; [apply lookup_insert_eq|].
    split; [by intros k' Hk'; apply lookup_insert_ne|].
    unfold pushChild, getChildren. destruct (parent (heap s item)) as [p|]; [|done].
    cbn [childrenMap]. rewrite lookup_insert_eq. split; [done|]. split; [done|].
    intros q Hq. by apply lookup_insert_ne.
Qed.

Lemma addItem_spec_witness :
  (addItem 1%positive fixture).2 = fixture
  ∧ getAll (addItem 8%positive fixture).2 = getAll fixture ++ [8%positive].
Proof.
  split.
  - apply (addItem_spec fixture 1%positive). vm_compute. eauto.
  - apply (addItem_spec fixture 8%positive). vm_compute. reflexivity.
Defined.




(** C7: for a successful [updateItem] on a store whose indexes are those of
    its sequence (every store the operations produce): when the argument's
    parent equals the stored record's parent the children map is unchanged;
    when it differs, the updated record leaves its old parent's list, is in
    its new parent's list, and every other record is in the same lists as
    before; in both cases every list holds the records with that parent in
    sequence order. *)
Theorem updateItem_children_frame s item old (X : Indexed s) :
  getItem s (id (heap s item)) = Some old →
  let s' := (updateItem item s).2 in
  (parent (heap s item) = parent (heap s old) → childrenMap s' = childrenMap s)
  ∧ (parent (heap s item) ≠ parent (heap s old) →
     (∀ p, parent (heap s old) = Some p →
           old ∈ getChildren s p ∧ old ∉ getChildren s' p)
     ∧ (∀ q, parent (heap s item) = Some q → old ∈ getChildren s' q)
     ∧ (∀ l p, l ≠ old → l ∈ getChildren s' p ↔ l ∈ getChildren s p))
  ∧ (∀ p, getChildren s' p = childrenOf (heap s') (items s') p).
Proof.
  intros Hold s'.
  pose proof (idx_children s X) as Hc.
  pose proof (idx_children s' (updateItem_indexed s item X)) as Hc'.
  assert (items s' = items s
          ∧ parent (heap s' old) = parent (heap s item)
          ∧ ∀ l, l ≠ old → heap s' l = heap s l) as (Hitems & Hpar & Hframe).
  { subst s'. rewrite (updateItem_Some s item old Hold). cbn [snd heap items].
    rewrite fn_lookup_insert. split; [done|]. split; [done|].
    intros l Hl. by apply fn_lookup_insert_ne. }
  assert (old ∈ items s) as Hin by by apply (idx_idMap s X) in Hold as [? _].
  split; [|split].
  - intros E. subst s'. rewrite (updateItem_Some s item old Hold). cbn [snd childrenMap].
    by rewrite bool_decide_eq_false_2 by (intros Hne; by apply Hne).
  - intros Hne. split; [|split].
    + intros p Hp. split; [by apply (getChildren_elem s p old Hc)|].
      intros [_ Hp']%(getChildren_elem s' p old Hc'). congruence.
    + intros q Hq. apply (getChildren_elem s' q old Hc'). split; [by rewrite Hitems|].
      congruence.
    + intros l p Hl.
      rewrite (getChildren_elem s' p l Hc'), (getChildren_elem s p l Hc).
      by rewrite Hitems, (Hframe l Hl).
  - intros p. by apply getChildren_inv.
Qed.

Lemma updateItem_children_frame_witness :
  childrenMap (updateItem 2%positive fixture).2 = childrenMap fixture
  ∧ 2%positive ∈ getChildren movedStore (KNum 1)
  ∧ (2%positive ∉ getChildren (updateItem 9%positive movedStore).2 (KNum 1))
  ∧ 2%positive ∈ getChildren (updateItem 9%positive movedStore).2 (KNum 3).
Proof.
  split.
  - apply (updateItem_children_frame fixture 2%positive 2%positive
             (StoreInv_Indexed fixture fixture_inv)).
    + vm_compute. reflexivity.
    + reflexivity.
  - destruct (updateItem_children_frame movedStore 9%positive 2%positive
                (new_indexed movedHeap [1; 2; 3; 4; 5; 6; 7]%positive))
      as (_ & H & _).
    + vm_compute. reflexivity.
    + destruct H as (H1 & H2 & _).
      * vm_compute. discriminate.
      * split; [apply (H1 (KNum 1)); vm_compute; reflexivity|].
        split; [apply (H1 (KNum 1)); vm_compute; reflexivity|].
        apply (H2 (KNum 3)). vm_compute. reflexivity.
Defined.

(** C8 (as stated, refuted): an id unknown to the store can have children.
    In the store of the test "should stop at missing parent" the id 98 is not
    present, and [getChildren(98)] is the one-element list holding record
    99. *)
Lemma getChildren_unknown_id_with_orphans :
  StoreInv brokenStore
  ∧ getItem brokenStore (KNum 98) = None
  ∧ getChildren brokenStore (KNum 98) = [8%positive]
  ∧ getChildren brokenStore (KNum 98) ≠ [].
Proof. split; [apply brokenStore_inv|]. by vm_compute. Qed.

(** C8 (amended): in a store that satisfies the invariants, every record [r]
    of the sequence with non-null parent [p] occurs exactly once in
    [getChildren(p)]; every children list is the subsequence of the
    sequence formed by the records with that parent; and for an id that no
    record of the sequence names as its parent, [getChildren] returns the
    empty sequence. *)
Theorem getChildren_complete s (I : StoreInv s) :
  (∀ r p, r ∈ items s → parent (heap s r) = Some p →
     ∃ l1 l2, getChildren s p = l1 ++ r :: l2 ∧ (r ∉ l1) ∧ (r ∉ l2))
  ∧ (∀ p, getChildren s p = childrenOf (heap s) (items s) p)
  ∧ (∀ p, getChildren s p `sublist_of` items s)
  ∧ (∀ p, (∀ l, l ∈ items s → parent (heap s l) ≠ Some p) →
          getChildren s p = []).
Proof.
  split; [|split; [|split]].
  - intros r p Hr Hp.
    assert (r ∈ getChildren s p) as (l1 & l2 & E)%list_elem_of_split
      by by apply (getChildren_spec s I).
    exists l1, l2. split; [done|].
    pose proof (getChildren_NoDup s I p) as Hnd. rewrite E in Hnd.
    apply NoDup_app in Hnd as (_ & H1 & [H2 _]%NoDup_cons). split; [|done].
    intros Hin. apply (H1 r Hin). by left.
  - intros p. apply getChildren_inv, (inv_children s I).
  - intros p. rewrite (getChildren_inv s p (inv_children s I)).
    apply sublist_filter.
  - intros p Hleaf. apply elem_of_nil_inv.
    intros l [Hl Hp]%(getChildren_spec s I). by apply (Hleaf l).
Qed.

Lemma getChildren_complete_witness :
  (∀ r p, r ∈ items fixture → parent (heap fixture r) = Some p →
     ∃ l1 l2, getChildren fixture p = l1 ++ r :: l2 ∧ (r ∉ l1) ∧ (r ∉ l2))
  ∧ (∀ p, getChildren fixture p = childrenOf (heap fixture) (items fixture) p)
  ∧ (∀ p, getChildren fixture p `sublist_of` items fixture)
  ∧ (∀ p, (∀ l, l ∈ items fixture → parent (heap fixture l) ≠ Some p) →
          getChildren fixture p = []).
Proof. exact (getChildren_complete fixture fixture_inv). Defined.

(** C9: the scenario of the test suite.  On the store built from the records
    (1,null), (2,1), (3,1), (4,2), (5,2), (6,3), (7,null):
    [getChildren(1)] has ids [2,3]; [getAllChildren(1)] has length 5 and its
    ids are exactly 2, 3, 4, 5, 6; [getAllParents(4)] has ids [4,2,1]; after
    [removeItem(2)] the store holds the four records with ids 1, 3, 6, 7,
    [getItem] finds these four and none under the ids 2, 4 and 5, and
    [getChildren(1)] has length 1.  The loops return with any fuel from 7
    (descendants of 1) and 4 (ancestors of 4, subtree of 2) on. *)
Theorem fixture_scenario :
  idsOf fixture (getChildren fixture (KNum 1)) = [KNum 2; KNum 3]
  ∧ (∀ m, ∃ d, getAllChildren (7 + m) fixture (KNum 1) = Some d
               ∧ length d = 5%nat
               ∧ ∀ k, k ∈ idsOf fixture d
                      ↔ k ∈ [KNum 2; KNum 3; KNum 4; KNum 5; KNum 6])
  ∧ (∀ m, idsOf fixture <$> getAllParents (4 + m) fixture (KNum 4)
          = Some [KNum 4; KNum 2; KNum 1])
  ∧ (∀ m, ∃ s', removeItem (4 + m) (KNum 2) fixture = Some s'
                ∧ idsOf s' (getAll s') = [KNum 1; KNum 3; KNum 6; KNum 7]
                ∧ length (getAll s') = 4%nat
                ∧ fmap (getItem s') [KNum 2; KNum 4; KNum 5]
                  = [None; None; None]
                ∧ fmap (getItem s') [KNum 1; KNum 3; KNum 6; KNum 7]
                  = [Some 1; Some 3; Some 6; Some 7]%positive
                ∧ length (getChildren s' (KNum 1)) = 1%nat).
Proof.
  split; [by vm_compute|]. split; [|split].
  - intros m. exists [2; 3; 6; 4; 5]%positive. split; [|split].
    + by apply (getAllChildren_loop_mono 7 m).
    + done.
    + intros k. change (idsOf fixture [2; 3; 6; 4; 5]%positive)
        with [KNum 2; KNum 3; KNum 6; KNum 4; KNum 5].
      rewrite !elem_of_cons. pose proof (not_elem_of_nil k). tauto.
  - intros m.
    assert (getAllParents (4 + m) fixture (KNum 4) = Some [4; 2; 1]%positive)
      as -> by by apply (getAllParents_loop_mono 4 m).
    done.
  - intros m.
    assert (getAllChildren (4 + m) fixture (KNum 2) = Some [4; 5]%positive) as Hd
      by by apply (getAllChildren_loop_mono 4 m).
    destruct (removeItem_of_descendants _ _ _ _ Hd) as [s' Hs'].
    exists s'. split; [done|].
    destruct (removeItem_Some _ _ _ _ Hs') as (d & Hd' & Hh & Hi & Hm & Hc).
    assert (d = [4; 5]%positive) as -> by congruence.
    assert (getAll s' = [1; 3; 6; 7]%positive) as Hitems.
    { unfold getAll. rewrite Hi. by vm_compute. }
    unfold idsOf, getChildren, getItem. unfold getAll in Hitems.
    rewrite Hc, Hh, Hm. unfold getAll. rewrite Hitems. by vm_compute.
Qed.

(** C10 (as stated, refuted): the ancestor traversal on a cyclic parent chain
    does terminate.  Every iteration appends to the result, and an array
    holds at most 2^32 - 1 elements: in the store of the records A (parent
    B) and B (parent A), [getAllParents(A)] fails with [RangeError] once the
    fuel allows that many iterations. *)
Lemma getAllParents_on_cycle_throws :
  tc (par cycleStore) (KStr "A") (KStr "A")
  ∧ ∃ n, ∀ fuel, (n ≤ fuel)%nat →
      getAllParents_limited fuel cycleStore (KStr "A") = RangeError.
Proof.
  split; [|apply getAllParents_limited_throws, cycleStore_reachesCycle].
  apply (tc_l _ _ (KStr "B")); [|apply tc_once].
  - exists 1%positive. split; [apply list_elem_of_here|done].
  - exists 2%positive.
    split; [apply list_elem_of_further, list_elem_of_here|done].
Qed.

(** C10 (amended): in a store whose indexes are those of its sequence (every
    store the operations produce), whose sequence is an array and whose
    parent relation is acyclic, once the fuel is large enough
    [getAllParents(k)] returns for every [k] and [getAllChildren(k)] halts
    for every [k]: it returns or fails with [RangeError], and it returns
    when the store satisfies the invariants.  In any store, if the ancestor
    walk from [k] leads into a cycle then [getAllParents(k)] returns for no
    amount of fuel and, once the fuel is large enough, fails with
    [RangeError] because the result array is full; in particular, in a store
    that satisfies the invariants this is so for every [k] that lies on a
    cycle of the parent relation.  The store does not detect the cycle. *)
Theorem traversal_termination s :
  (Indexed s → Acyclic s → (N.of_nat (length (items s)) ≤ arrayLimit)%N →
   ∀ k,
     (∃ n path, ∀ fuel, (n ≤ fuel)%nat →
        getAllParents_limited fuel s k = Finished path)
     ∧ (∃ n out, ∀ fuel, (n ≤ fuel)%nat →
        getAllChildren_limited fuel s k = Finished out
        ∨ getAllChildren_limited fuel s k = RangeError)
     ∧ (StoreInv s →
        ∃ n out, ∀ fuel, (n ≤ fuel)%nat →
          getAllChildren_limited fuel s k = Finished out))
  ∧ (∀ k, reachesCycle s k →
       (∀ fuel path, getAllParents_limited fuel s k ≠ Finished path)
       ∧ ∃ n, ∀ fuel, (n ≤ fuel)%nat →
           getAllParents_limited fuel s k = RangeError)
  ∧ (StoreInv s → ∀ k, tc (par s) k k →
       (∀ fuel path, getAllParents_limited fuel s k ≠ Finished path)
       ∧ ∃ n, ∀ fuel, (n ≤ fuel)%nat →
           getAllParents_limited fuel s k = RangeError).
Proof.
  assert (∀ k, reachesCycle s k →
            (∀ fuel path, getAllParents_limited fuel s k ≠ Finished path)
            ∧ ∃ n, ∀ fuel, (n ≤ fuel)%nat →
                getAllParents_limited fuel s k = RangeError) as Hcycle.
  { intros k Hk. split.
    - by apply getAllParents_limited_never_Finished.
    - by apply getAllParents_limited_throws. }
  split; [|split; [done|]].
  - intros X Hacyc Hfit k. split; [|split].
    + destruct (getAllParents_loop_total s (Some k) X Hacyc) as (n & path & H).
      exists n, path. intros fuel Hf.
      apply getAllParents_limited_fits; [done..|]. apply (H [] fuel Hf).
    + destruct (getAllChildren_terminates s (idx_children s X) Hacyc k)
        as (n & out & H).
      exists n, out. intros fuel Hf.
      by apply getAllChildren_limited_loop_halts, H.
    + intros I.
      destruct (getAllChildren_total s I Hacyc k)
        as (n & out & (Hmem & Hnd & _) & H).
      exists n, out. intros fuel Hf.
      apply getAllChildren_limited_fits; [|done..|by apply H].
      by intros l [? _]%Hmem.
  - intros I k Hk. by apply Hcycle, on_cycle_reachesCycle.
Qed.

Lemma traversal_termination_witness :
  ((∃ n path, ∀ fuel, (n ≤ fuel)%nat →
       getAllParents_limited fuel fixture (KNum 4) = Finished path)
   ∧ (∃ n out, ∀ fuel, (n ≤ fuel)%nat →
       getAllChildren_limited fuel fixture (KNum 1) = Finished out))
  ∧ ∃ n, ∀ fuel, (n ≤ fuel)%nat →
      getAllParents_limited fuel cycleStore (KStr "A") = RangeError.
Proof.
  split; [split|].
  - refine (proj1 (proj1 (traversal_termination fixture)
                     (StoreInv_Indexed fixture fixture_inv) fixture_acyclic
                     _ (KNum 4))).
    vm_compute. discriminate.
  - refine (proj2 (proj2 (proj1 (traversal_termination fixture)
                     (StoreInv_Indexed fixture fixture_inv) fixture_acyclic
                     _ (KNum 1))) fixture_inv).
    vm_compute. discriminate.
  - exact (proj2 (proj1 (proj2 (traversal_termination cycleStore))
             (KStr "A") cycleStore_reachesCycle)).
Defined.

(** * Further properties: construction, lookup and composition *)

Lemma new_idMap (h : Heap) (input : list loc) :
  idMap (new h input) = foldl (λ m l, <[id (h l) := l]> m) ∅ input.
Proof. unfold new. cbn [idMap]. by rewrite foldl_indexItem_fst. Qed.

Lemma new_snoc (h : Heap) (input : list loc) (item : loc) :
  new h (input ++ [item])
  = {| heap := h;
       items := input ++ [item];
       idMap := <[id (h item) := item]> (idMap (new h input));
       childrenMap := pushChild h (childrenMap (new h input)) item |}.
Proof. unfold new. by rewrite foldl_app. Qed.

Lemma StoreInv_canonical s : StoreInv s → s = new (heap s) (items s).
Proof.
  intros I. symmetry. apply TreeStore_eq; [done|done| |].
  - rewrite new_idMap. apply map_eq. intros k. apply option_eq. intros l.
    rewrite (foldl_set_lookup (heap s) (items s) k l (inv_unique s I)).
    symmetry. apply (inv_idMap s I).
  - by rewrite new_childrenMap, (inv_children s I).
Qed.

(** X1: [getItem] on a freshly constructed store returns, for every id, the
    last record of the input that carries that id ([Map.set] overwrites), and
    nothing when no record carries it. *)
Theorem getItem_new_last (h : Heap) (input : list loc) (k : Key) :
  getItem (new h input) k = last (filter (λ l, id (h l) = k) input).
Proof.
  unfold getItem. rewrite new_idMap.
  induction input as [|x input IH] using rev_ind; [done|].
  rewrite foldl_app, filter_app. cbn [foldl]. rewrite filter_cons, filter_nil.
  destruct (decide (id (h x) = k)) as [<-|Hne].
  - by rewrite lookup_insert_eq, last_snoc.
  - by rewrite lookup_insert_ne, app_nil_r.
Qed.

(** X2: adding the records of a sequence with pairwise distinct ids one by
    one to an empty store never throws and ends in exactly the store that the
    constructor builds from the sequence. *)
Theorem addItem_fold_new (h : Heap) (input : list loc) :
  NoDup (fmap (λ l, id (h l)) input) →
  foldl (λ s item, (addItem item s).2) (new h []) input = new h input
  ∧ ∀ done item rest, input = done ++ item :: rest →
      (addItem item (new h done)).1 = Returned.
Proof.
  intros Hnd.
  assert (∀ done item, NoDup (fmap (λ l, id (h l)) (done ++ [item])) →
            addItem item (new h done) = (Returned, new h (done ++ [item])))
    as Hstep.
  { intros done item Hnd'. unfold addItem.
    change (heap (new h done)) with h. change (items (new h done)) with done.
    rewrite decide_False.
    - by rewrite new_snoc.
    - intros [l Hl]. rewrite new_idMap in Hl.
      apply foldl_set_sound in Hl as [Hl E].
      rewrite fmap_app in Hnd'. apply NoDup_app in Hnd' as (_ & Hfresh & _).
      apply (Hfresh (id (h item))); [|by left].
      rewrite <- E. by apply (list_elem_of_fmap_2 (λ l, id (h l))). }
  split.
  - induction input as [|x input IH] using rev_ind; [done|].
    rewrite foldl_app. cbn [foldl]. rewrite IH.
    + by rewrite Hstep.
    + rewrite fmap_app in Hnd. by apply NoDup_app in Hnd as (? & _ & _).
  - intros done item rest ->. rewrite Hstep; [done|].
    rewrite (cons_middle item done rest), app_assoc, fmap_app in Hnd.
    by apply NoDup_app in Hnd as (? & _ & _).
Qed.

Lemma addItem_fold_new_witness :
  foldl (λ s item, (addItem item s).2) (new fixtureHeap [])
    [1; 2; 3; 4; 5; 6; 7]%positive = fixture.
Proof.
  apply (addItem_fold_new fixtureHeap [1; 2; 3; 4; 5; 6; 7]%positive).
  apply NoDup_by_decide. vm_compute. reflexivity.
Defined.

(** X3: the indexes are a function of the heap and the sequence.  A store
    that satisfies the invariants is the store the constructor builds from
    its own sequence, and so is every store that [addItem], [removeItem] or
    [updateItem] makes of it. *)
Theorem operations_rebuild s (I : StoreInv s) :
  s = new (heap s) (getAll s)
  ∧ (∀ item, (addItem item s).2
             = new (heap s) (getAll (addItem item s).2))
  ∧ (∀ fuel k s', removeItem fuel k s = Some s' →
                  s' = new (heap s) (getAll s'))
  ∧ (∀ item, (updateItem item s).2
             = new (heap (updateItem item s).2) (getAll s)).
Proof.
  split; [by apply StoreInv_canonical|]. split; [|split].
  - intros item. rewrite (StoreInv_canonical _ (addItem_inv s item I)) at 1.
    f_equal. unfold addItem. by case_decide.
  - intros fuel k s' Hs'.
    rewrite (StoreInv_canonical _ (removeItem_inv fuel k s s' I Hs')) at 1.
    f_equal. by destruct (removeItem_Some _ _ _ _ Hs') as (_ & _ & ? & _).
  - intros item. rewrite (StoreInv_canonical _ (updateItem_inv s item I)) at 1.
    f_equal. destruct (getItem s (id (heap s item))) as [old|] eqn:Hold.
    + by rewrite (updateItem_Some s item old Hold).
    + by rewrite (updateItem_None s item Hold).
Qed.

Lemma operations_rebuild_witness :
  (addItem 8%positive fixture).2
  = new fixtureHeap [1; 2; 3; 4; 5; 6; 7; 8]%positive
  ∧ (updateItem 9%positive movedStore).2
    = new (heap (updateItem 9%positive movedStore).2)
        [1; 2; 3; 4; 5; 6; 7]%positive.
Proof.
  split.
  - destruct (operations_rebuild fixture fixture_inv) as (_ & H & _).
    rewrite (H 8%positive) at 1. f_equal.
  - destruct (operations_rebuild movedStore) as (_ & _ & _ & H).
    + apply new_inv, NoDup_by_decide. vm_compute. reflexivity.
    + exact (H 9%positive).
Defined.

(** X4: adding a record and then removing its id gives back the store as it
    was, provided the id was not present, no record was already naming it as
    its parent, and the record is not its own parent. *)
Theorem addItem_removeItem s item fuel (I : StoreInv s) :
  getItem s (id (heap s item)) = None →
  (∀ l, l ∈ items s → parent (heap s l) ≠ Some (id (heap s item))) →
  parent (heap s item) ≠ Some (id (heap s item)) →
  (2 ≤ fuel)%nat →
  (addItem item s).1 = Returned
  ∧ removeItem fuel (id (heap s item)) (addItem item s).2 = Some s.
Proof.
  intros Hk Hleaf Hself Hfuel. set (k := id (heap s item)) in *.
  unfold addItem. fold k. unfold getItem in Hk.
  rewrite decide_False by (intros [? ?]; congruence). cbn [fst snd].
  split; [done|].
  set (s1 := {| heap := heap s; items := items s ++ [item];
                idMap := <[k := item]> (idMap s);
                childrenMap := pushChild (heap s) (childrenMap s) item |}).
  assert (getChildren s1 k = []) as Hc1.
  { unfold getChildren, s1. cbn [childrenMap].
    rewrite pushChild_lookup, decide_False by done.
    rewrite (inv_children s I), rebuildChildren_default.
    apply elem_of_nil_inv. intros l [Hl Hp]%elem_of_childrenOf.
    by apply (Hleaf l). }
  pose proof (getAllChildren_leaf_run fuel s1 k Hfuel Hc1) as Hd.
  destruct (removeItem_of_descendants fuel k s1 [] Hd) as [s' Hs'].
  rewrite Hs'. f_equal.
  destruct (removeItem_Some _ _ _ _ Hs') as (d & Hd' & Hh & Hi & Hm & Hcm).
  assert (d = []) as -> by congruence.
  assert (items s' = items s) as Hi'.
  { rewrite Hi. unfold s1. cbn [items heap]. rewrite filter_app.
    rewrite filter_cons, filter_nil, decide_False, app_nil_r.
    - apply filter_all. intros l Hl. rewrite elem_of_list_to_set.
      intros [E|[]%elem_of_nil]%elem_of_cons.
      apply (id_in_idMap s l I) in Hl. fold k in E. congruence.
    - intros Hn. apply Hn. rewrite elem_of_list_to_set. by left. }
  apply TreeStore_eq; [done|done| |].
  - rewrite Hm. unfold s1. cbn [idMap foldl fmap list_fmap].
    rewrite delete_insert_eq. by apply delete_id.
  - rewrite Hcm, Hh, Hi'. unfold s1. cbn [heap]. by rewrite (inv_children s I).
Qed.

Lemma addItem_removeItem_witness :
  removeItem 2 (KNum 8) (addItem 8%positive fixture).2 = Some fixture.
Proof.
  apply (addItem_removeItem fixture 8%positive 2 fixture_inv).
  - vm_compute. reflexivity.
  - intros l Hl. unfold fixture, new in Hl. cbn [items] in Hl.
    repeat (apply elem_of_cons in Hl as [->|Hl]);
      [..|by apply elem_of_nil in Hl]; vm_compute; discriminate.
  - vm_compute. discriminate.
  - lia.
Defined.

(** * Further properties: cycles, orphans and the two traversals *)

(** X5: the descendant traversal has no cycle detection either.  In a store
    whose children map is the one derived from its sequence, if [k] lies on
    a cycle of the parent relation, or above one, then [getAllChildren(k)]
    returns for no amount of fuel: it keeps appending, and once the fuel is
    large enough it fails with [RangeError] because an array is full. *)
Theorem getAllChildren_diverges_on_cycle s k :
  childrenMap s = rebuildChildren (heap s) (items s) →
  aboveCycle s k →
  (∀ fuel out, getAllChildren_limited fuel s k ≠ Finished out)
  ∧ ∃ n, ∀ fuel, (n ≤ fuel)%nat →
      getAllChildren_limited fuel s k = RangeError.
Proof.
  intros Hc Hk. split.
  - by apply getAllChildren_limited_never_Finished.
  - by apply getAllChildren_limited_throws.
Qed.

Lemma cycleStore_aboveCycle : aboveCycle cycleStore (KStr "A").
Proof.
  assert (tc (par cycleStore) (KStr "A") (KStr "A")) as T.
  { apply (tc_l _ _ (KStr "B")); [|apply tc_once].
    - exists 1%positive. split; [apply list_elem_of_here|done].
    - exists 2%positive.
      split; [apply list_elem_of_further, list_elem_of_here|done]. }
  by exists (KStr "A").
Qed.

Lemma getAllChildren_diverges_on_cycle_witness :
  (∀ fuel out, getAllChildren_limited fuel cycleStore (KStr "A") ≠ Finished out)
  ∧ ∃ n, ∀ fuel, (n ≤ fuel)%nat →
      getAllChildren_limited fuel cycleStore (KStr "A") = RangeError.
Proof.
  exact (getAllChildren_diverges_on_cycle cycleStore (KStr "A")
           (new_childrenMap _ _) cycleStore_aboveCycle).
Defined.

(** X6: [updateItem] performs no cycle check.  In an acyclic store that
    satisfies the invariants, an update that gives record [k] a parent [p]
    that is [k] itself or one of its descendants succeeds and leaves [k] on
    a cycle of the parent relation; from then on [getAllParents(k)] and
    [getAllChildren(k)] return for no amount of fuel, and once the fuel is
    large enough they fail with [RangeError] because an array is full. *)
Theorem updateItem_creates_cycle s item old p
  (I : StoreInv s) (Hacyc : Acyclic s) :
  getItem s (id (heap s item)) = Some old →
  parent (heap s item) = Some p →
  rtc (par s) p (id (heap s item)) →
  (updateItem item s).1 = Returned
  ∧ tc (par (updateItem item s).2) (id (heap s item)) (id (heap s item))
  ∧ (∀ fuel r,
       getAllParents_limited fuel (updateItem item s).2 (id (heap s item))
       ≠ Finished r
       ∧ getAllChildren_limited fuel (updateItem item s).2 (id (heap s item))
         ≠ Finished r)
  ∧ ∃ n, ∀ fuel, (n ≤ fuel)%nat →
      getAllParents_limited fuel (updateItem item s).2 (id (heap s item))
      = RangeError
      ∧ getAllChildren_limited fuel (updateItem item s).2 (id (heap s item))
        = RangeError.
Proof.
  intros Hold Hp Hchain. set (k := id (heap s item)) in *.
  pose proof (updateItem_inv s item I) as I'.
  pose proof (updateItem_Some s item old Hold) as Hu. fold k in Hu.
  set (s' := (updateItem item s).2) in *.
  assert (heap s' old = assign (heap s old) (heap s item)
          ∧ (∀ l, l ≠ old → heap s' l = heap s l)
          ∧ items s' = items s) as (Hho & Hframe & Hitems).
  { subst s'. rewrite Hu. cbn [snd heap items]. rewrite fn_lookup_insert.
    split; [done|]. split; [|done]. intros l Hl. by apply fn_lookup_insert_ne. }
  assert (old ∈ items s ∧ id (heap s old) = k) as [Hin Hid]
    by by apply (inv_idMap s I).
  assert (par s' k p) as Hkp.
  { exists old. rewrite Hitems, Hho. by cbn [assign id parent]. }
  assert (∀ x, rtc (par s) x k → rtc (par s') x k) as Hkeep.
  { apply (rtc_ind_l (λ x, rtc (par s') x k)); [apply rtc_refl|].
    intros x y Hxy Hyz IH.
    eapply rtc_l; [|exact IH]. destruct Hxy as (l & Hl & E & Hpl).
    assert (l ≠ old) as Hne.
    { intros ->. apply (Hacyc k). eapply tc_rtc_r; [|exact Hyz].
      apply tc_once. exists old. rewrite <- Hid, E. by rewrite E in Hid. }
    exists l. by rewrite Hitems, (Hframe l Hne). }
  assert (tc (par s') k k) as Hcyc.
  { eapply tc_rtc_r; [by apply tc_once|by apply Hkeep]. }
  assert (reachesCycle s' k) as Hup by by apply on_cycle_reachesCycle.
  assert (aboveCycle s' k) as Hdown by by exists k.
  split; [by rewrite Hu|]. split; [done|]. split.
  - intros fuel r. split.
    + by apply getAllParents_limited_never_Finished.
    + by apply getAllChildren_limited_never_Finished; [apply (inv_children s' I')|].
  - destruct (getAllParents_limited_throws s' k Hup) as (n1 & H1).
    destruct (getAllChildren_limited_throws s' k (inv_children s' I') Hdown)
      as (n2 & H2).
    exists (n1 + n2)%nat. intros fuel Hf. split; [apply H1|apply H2]; lia.
Qed.

Lemma loopingStore_inv : StoreInv loopingStore.
Proof. apply new_inv, NoDup_by_decide. vm_compute. reflexivity. Qed.

Lemma loopingStore_acyclic : Acyclic loopingStore.
Proof.
  apply (acyclic_of_rank loopingStore keyRank). intros l p Hl Hp.
  unfold loopingStore, new in Hl. cbn [items] in Hl.
  repeat (apply elem_of_cons in Hl as [->|Hl]);
    [..|by apply elem_of_nil in Hl];
    vm_compute in Hp; try discriminate; injection Hp as <-; vm_compute; lia.
Qed.

Lemma updateItem_creates_cycle_witness :
  (updateItem 9%positive loopingStore).1 = Returned
  ∧ tc (par (updateItem 9%positive loopingStore).2) (KNum 1) (KNum 1)
  ∧ (∀ fuel r,
       getAllParents_limited fuel (updateItem 9%positive loopingStore).2
         (KNum 1) ≠ Finished r
       ∧ getAllChildren_limited fuel (updateItem 9%positive loopingStore).2
           (KNum 1) ≠ Finished r)
  ∧ ∃ n, ∀ fuel, (n ≤ fuel)%nat →
      getAllParents_limited fuel (updateItem 9%positive loopingStore).2
        (KNum 1) = RangeError
      ∧ getAllChildren_limited fuel (updateItem 9%positive loopingStore).2
          (KNum 1) = RangeError.
Proof.
  apply (updateItem_creates_cycle loopingStore 9%positive 1%positive (KNum 4)
           loopingStore_inv loopingStore_acyclic).
  - vm_compute. reflexivity.
  - vm_compute. reflexivity.
  - apply (rtc_l _ _ (KNum 2)); [|apply rtc_once].
    + exists 4%positive. split; [|done].
      do 3 apply list_elem_of_further. apply list_elem_of_here.
    + exists 2%positive. split; [|done].
      apply list_elem_of_further, list_elem_of_here.
Defined.

(** X7: [removeItem] never introduces a cycle: whenever it returns, the
    parent relation of the result is contained in the one before, so an
    acyclic store stays acyclic. *)
Theorem removeItem_acyclic fuel k s s' :
  removeItem fuel k s = Some s' →
  (∀ x y, par s' x y → par s x y) ∧ (Acyclic s → Acyclic s').
Proof.
  intros Hs'.
  destruct (removeItem_Some _ _ _ _ Hs') as (d & _ & Hh & Hi & _ & _).
  assert (∀ x y, par s' x y → par s x y) as Hsub.
  { intros x y (l & Hl & E & Hp). exists l. rewrite Hh in E, Hp.
    split; [|done]. rewrite Hi in Hl. by apply list_elem_of_filter in Hl as [_ ?]. }
  split; [done|]. intros Hacyc x Hx. apply (Hacyc x).
  by apply (tc_mono (par s') (par s)).
Qed.

Lemma fixture_remove_2 :
  removeItem 4 (KNum 2) fixture
  = Some (new fixtureHeap [1; 3; 6; 7]%positive).
Proof.
  destruct (removeItem_of_descendants 4 (KNum 2) fixture [4; 5]%positive)
    as [s' Hs']; [by vm_compute|].
  rewrite Hs'. f_equal.
  rewrite (StoreInv_canonical s' (removeItem_inv _ _ _ _ fixture_inv Hs')).
  destruct (removeItem_Some _ _ _ _ Hs') as (d & Hd & -> & -> & _).
  assert (d = [4; 5]%positive) as ->.
  { apply (getAllChildren_fuel_irrelevant 4 4 fixture (KNum 2)); [done|].
    by vm_compute. }
  f_equal.
Qed.

Lemma removeItem_acyclic_witness :
  (∀ x y, par (new fixtureHeap [1; 3; 6; 7]%positive) x y → par fixture x y)
  ∧ Acyclic (new fixtureHeap [1; 3; 6; 7]%positive).
Proof.
  destruct (removeItem_acyclic 4 (KNum 2) fixture
              (new fixtureHeap [1; 3; 6; 7]%positive) fixture_remove_2)
    as [H1 H2].
  split; [exact H1|exact (H2 fixture_acyclic)].
Defined.

(** X8: [addItem] keeps an acyclic store acyclic when the added record is
    not its own parent and no record of the store already names the new id
    as its parent (no orphan is waiting for it). *)
Theorem addItem_acyclic s item :
  Acyclic s →
  parent (heap s item) ≠ Some (id (heap s item)) →
  (∀ l, l ∈ items s → parent (heap s l) ≠ Some (id (heap s item))) →
  Acyclic (addItem item s).2.
Proof.
  intros Hacyc Hself Hleaf. unfold addItem. case_decide; [done|]. cbn [snd].
  set (k := id (heap s item)) in *.
  set (s' := {| heap := heap s; items := items s ++ [item];
                idMap := <[k := item]> (idMap s);
                childrenMap := pushChild (heap s) (childrenMap s) item |}).
  assert (∀ x y, par s' x y → y ≠ k) as Htarget.
  { intros x y (l & Hl & _ & Hp) ->. cbn [s' items heap] in Hl, Hp.
    apply elem_of_app in Hl as [Hl|Hl%list_elem_of_singleton].
    - by apply (Hleaf l).
    - by subst l. }
  assert (∀ x y, x ≠ k → par s' x y → par s x y) as Hold.
  { intros x y Hx (l & Hl & E & Hp). cbn [s' items heap] in Hl, E, Hp.
    apply elem_of_app in Hl as [Hl|Hl%list_elem_of_singleton].
    - by exists l.
    - subst l. by destruct Hx. }
  assert (∀ x y, tc (par s') x y → x ≠ k → tc (par s) x y) as Htc.
  { induction 1 as [x y H0|x y z H0 _ IH]; intros Hx.
    - by apply tc_once, Hold.
    - eapply tc_l; [by apply Hold|]. apply IH. by apply (Htarget x). }
  intros x Hx. apply (Hacyc x). apply Htc; [done|].
  destruct (tc_last _ _ _ Hx) as [H0|(y & _ & H0)]; by apply (Htarget _ _ H0).
Qed.

Lemma addItem_acyclic_witness : Acyclic (addItem 8%positive fixture).2.
Proof.
  apply (addItem_acyclic fixture 8%positive fixture_acyclic).
  - vm_compute. discriminate.
  - intros l Hl. unfold fixture, new in Hl. cbn [items] in Hl.
    repeat (apply elem_of_cons in Hl as [->|Hl]);
      [..|by apply elem_of_nil in Hl]; vm_compute; discriminate.
Defined.

(** The result of the descendant traversal is closed under children. *)
Lemma getAllChildren_loop_closed fuel s stack res r :
  getAllChildren_loop fuel s stack res = Some r →
  (∀ x, x ∈ res →
        id (heap s x) ∈ stack ∨ ∀ c, c ∈ getChildren s (id (heap s x)) → c ∈ res) →
  ∀ x c, x ∈ r → c ∈ getChildren s (id (heap s x)) → c ∈ r.
Proof.
  revert stack res. induction fuel as [|fuel IH]; intros stack res; [done|].
  destruct stack as [|top st _] using rev_ind.
  - intros [= <-] Hinv x c Hx Hc.
    destruct (Hinv x Hx) as [[]%elem_of_nil|Hcl]. by apply Hcl.
  - rewrite getAllChildren_loop_step. intros Hr Hinv. apply (IH _ _ Hr).
    intros x [Hx|Hx]%elem_of_app.
    + destruct (Hinv x Hx) as [[Hst|Htop%list_elem_of_singleton]%elem_of_app|Hcl].
      * left. apply elem_of_app. by left.
      * right. intros c Hc. apply elem_of_app. right. by rewrite Htop in Hc.
      * right. intros c Hc. apply elem_of_app. left. by apply Hcl.
    + left. apply elem_of_app. right.
      by apply (list_elem_of_fmap_2 (λ c, id (heap s c))).
Qed.

(** X9: the cascade leaves no dangling children.  In a store whose children
    map is the one derived from its sequence and in which every non-null
    parent is present, the same holds after [removeItem], whenever it
    returns. *)
Theorem removeItem_no_orphans fuel k s s' :
  childrenMap s = rebuildChildren (heap s) (items s) →
  NoOrphans s →
  removeItem fuel k s = Some s' →
  NoOrphans s'.
Proof.
  intros Hc Hno Hs'.
  destruct (removeItem_Some _ _ _ _ Hs') as (d & Hd & Hh & Hi & Hm & _).
  intros l p Hl Hp. rewrite Hh in Hp. rewrite Hi in Hl.
  apply list_elem_of_filter in Hl as [Hkeep Hl].
  destruct (Hno l p Hl Hp) as [lp Hlp].
  unfold getItem. rewrite Hm, foldl_delete_lookup.
  rewrite decide_False; [by exists lp|]. intros Hin. apply Hkeep.
  rewrite elem_of_list_to_set. right.
  apply (list_elem_of_fmap_2 (λ i, id (heap s i))).
  assert (l ∈ getChildren s p) as Hlc by by apply (getChildren_elem s p l Hc).
  apply elem_of_cons in Hin as [->|Hin].
  - by apply (getAllChildren_children fuel s k d Hd).
  - apply list_elem_of_fmap in Hin as (x & -> & Hx).
    apply (getAllChildren_loop_closed fuel s [k] [] d Hd) with (x := x); [|done..].
    by intros ? ?%elem_of_nil.
Qed.

Lemma fixture_no_orphans : NoOrphans fixture.
Proof.
  intros l p Hl Hp. unfold fixture, new in Hl. cbn [items] in Hl.
  repeat (apply elem_of_cons in Hl as [->|Hl]);
    [..|by apply elem_of_nil in Hl];
    vm_compute in Hp; try discriminate; injection Hp as <-; vm_compute; eauto.
Qed.

Lemma removeItem_no_orphans_witness :
  NoOrphans (new fixtureHeap [1; 3; 6; 7]%positive).
Proof.
  apply (removeItem_no_orphans 4 (KNum 2) fixture).
  - apply new_childrenMap.
  - apply fixture_no_orphans.
  - apply fixture_remove_2.
Defined.

Lemma getAllParents_AncestorPath fuel s k path :
  getAllParents fuel s k = Some path → AncestorPath s (Some k) path.
Proof. by intros (p & -> & Hp)%getAllParents_loop_path. Qed.

Section Ancestry.
Variable s : TreeStore.
Hypothesis I : StoreInv s.

Lemma path_elem_rtc c x path a :
  AncestorPath s c path → c = Some x → a ∈ path →
  a ∈ items s ∧ rtc (par s) x (id (heap s a)).
Proof.
  intros H. revert x. induction H as [|k Hk|k l rest Hk H IH]; intros x Hc Ha.
  - by apply elem_of_nil in Ha.
  - by apply elem_of_nil in Ha.
  - injection Hc as ->. apply (inv_idMap s I) in Hk as [Hl Hid].
    apply elem_of_cons in Ha as [->|Ha]; [by rewrite Hid|].
    destruct (parent (heap s l)) as [p|] eqn:Hp.
    + destruct (IH p eq_refl Ha) as [Hin Hrtc]. split; [done|].
      eapply rtc_l; [|exact Hrtc]. by exists l.
    + inversion H; subst. by apply elem_of_nil in Ha.
Qed.

Lemma rtc_path_elem x a :
  a ∈ items s → rtc (par s) x (id (heap s a)) →
  ∀ path, AncestorPath s (Some x) path → a ∈ path.
Proof.
  intros Ha. revert x.
  apply (rtc_ind_l (λ x, ∀ path, AncestorPath s (Some x) path → a ∈ path)).
  - intros path H. pose proof (id_in_idMap s a I Ha) as Hid.
    inversion H as [|k' Hk'|k' l' rest' Hk' Hrest']; subst; [congruence|].
    assert (l' = a) as -> by congruence. by left.
  - intros x y (l & Hl & <- & Hp) _ IH path H.
    pose proof (id_in_idMap s l I Hl) as Hid.
    inversion H as [|k' Hk'|k' l' rest' Hk' Hrest']; subst; [congruence|].
    assert (l' = l) as -> by congruence. right. apply IH. by rewrite <- Hp.
Qed.

Hypothesis Hacyc : Acyclic s.

Lemma AncestorPath_NoDup c path : AncestorPath s c path → NoDup path.
Proof.
  induction 1 as [|k Hk|k l rest Hk H IH]; [constructor..|].
  apply NoDup_cons. split; [|done]. intros Hin.
  pose proof Hk as [Hl Hid]%(inv_idMap s I).
  destruct (parent (heap s l)) as [p|] eqn:Hp.
  - destruct (path_elem_rtc _ p rest l H eq_refl Hin) as [_ Hrtc].
    apply (Hacyc k). eapply tc_rtc_r; [|by rewrite Hid in Hrtc].
    apply tc_once. by exists l.
  - inversion H; subst. by apply elem_of_nil in Hin.
Qed.
End Ancestry.

(** X10: the two traversals are converse to each other.  In an acyclic store
    that satisfies the invariants, a record [l] of the sequence is returned
    by [getAllChildren(k)] exactly when some record on the ancestor path
    [getAllParents(l.id)] names [k] as its parent. *)
Theorem descendants_ancestors_converse s k l fuel fuel' out path
  (I : StoreInv s) (Hacyc : Acyclic s) :
  l ∈ items s →
  getAllChildren fuel s k = Some out →
  getAllParents fuel' s (id (heap s l)) = Some path →
  l ∈ out ↔ ∃ a, a ∈ path ∧ parent (heap s a) = Some k.
Proof.
  intros Hl Hout Hpath.
  destruct (getAllChildren_total s I Hacyc k) as (n & out' & (Hmem & _) & Hrun).
  assert (out = out') as <-.
  { apply (getAllChildren_fuel_irrelevant fuel n s k out out' Hout).
    by apply Hrun. }
  apply getAllParents_AncestorPath in Hpath.
  rewrite Hmem. unfold descendant. split.
  - intros [_ [H|(y & Hy & (a & Ha & <- & Hp))]%tc_last].
    + exists l. split; [|by apply (par_item s I l k)].
      assert (rtc (par s) (id (heap s l)) (id (heap s l))) as Hr
        by apply rtc_refl.
      by apply (rtc_path_elem s I (id (heap s l)) l Hl Hr path).
    + exists a. split; [|done].
      apply tc_rtc in Hy.
      by apply (rtc_path_elem s I (id (heap s l)) a Ha Hy path).
  - intros (a & Ha & Hp).
    destruct (path_elem_rtc s I _ (id (heap s l)) path a Hpath eq_refl Ha)
      as [Hin Hrtc].
    split; [done|]. eapply tc_rtc_l; [exact Hrtc|]. apply tc_once. by exists a.
Qed.

Lemma descendants_ancestors_converse_witness :
  6%positive ∈ [2; 3; 6; 4; 5]%positive
  ↔ ∃ a, a ∈ [6; 3; 1]%positive ∧ parent (heap fixture a) = Some (KNum 1).
Proof.
  apply (descendants_ancestors_converse fixture (KNum 1) 6%positive 7 4
           [2; 3; 6; 4; 5]%positive [6; 3; 1]%positive
           fixture_inv fixture_acyclic).
  - unfold fixture, new. cbn [items].
    do 5 apply list_elem_of_further. apply list_elem_of_here.
  - vm_compute. reflexivity.
  - vm_compute. reflexivity.
Defined.

(** X11: in an acyclic store that satisfies the invariants, the path returned
    by [getAllParents] never repeats a record, consists of records of the
    sequence, and is therefore no longer than the sequence. *)
Theorem getAllParents_bounded s k fuel path
  (I : StoreInv s) (Hacyc : Acyclic s) :
  getAllParents fuel s k = Some path →
  NoDup path
  ∧ (∀ a, a ∈ path → a ∈ getAll s)
  ∧ (length path ≤ length (getAll s))%nat.
Proof.
  intros Hpath%getAllParents_AncestorPath.
  pose proof (AncestorPath_NoDup s I Hacyc _ _ Hpath) as Hnd.
  assert (∀ a, a ∈ path → a ∈ getAll s) as Hsub.
  { intros a Ha. by destruct (path_elem_rtc s I _ k path a Hpath eq_refl Ha). }
  split; [done|]. split; [done|].
  by apply submseteq_length, NoDup_submseteq.
Qed.

Lemma getAllParents_bounded_witness :
  NoDup [4; 2; 1]%positive
  ∧ (∀ a, a ∈ [4; 2; 1]%positive → a ∈ getAll fixture)
  ∧ (length [4; 2; 1]%positive ≤ length (getAll fixture))%nat.
Proof.
  apply (getAllParents_bounded fixture (KNum 4) 4 [4; 2; 1]%positive
           fixture_inv fixture_acyclic).
  vm_compute. reflexivity.
Defined.

(** * Further properties: the grid component *)

Lemma getAllParents_loop_shift fuel s c res res' r :
  getAllParents_loop fuel s c res = Some r →
  ∃ path, r = res ++ path
          ∧ getAllParents_loop fuel s c res' = Some (res' ++ path).
Proof.
  revert c res res' r. induction fuel as [|fuel IH]; intros c res res' r; [done|].
  cbn [getAllParents_loop]. destruct c as [k|].
  - destruct (idMap s !! k) as [l|] eqn:E.
    + intros H. destruct (IH _ _ (res' ++ [l]) _ H) as (path & -> & Hp).
      exists (l :: path). split; [list_assoc|]. rewrite Hp. f_equal. list_assoc.
    + intros [= <-]. exists []. by rewrite !app_nil_r.
  - intros [= <-]. exists []. by rewrite !app_nil_r.
Qed.

Lemma getAllParents_loop_res fuel s c res r :
  getAllParents_loop fuel s c res = Some r →
  ∃ path, r = res ++ path ∧ getAllParents_loop fuel s c [] = Some path.
Proof. apply getAllParents_loop_shift. Qed.

(** The data path of a record registered in the store: the ids of the
    ancestor walk from its parent, topmost first, then its own id. *)
Lemma getDataPath_registered fuel s d pd :
  getItem s (id (heap s d)) = Some d →
  getDataPath fuel s (Some d) = Some pd →
  ∃ rest, AncestorPath s (parent (heap s d)) rest
          ∧ pd = fmap (λ item, id (heap s item)) (reverse rest)
                 ++ [id (heap s d)]
          ∧ (∀ p, parent (heap s d) = Some p →
                  getAllParents fuel s p = Some rest).
Proof.
  intros Hd. unfold getDataPath.
  destruct (parent (heap s d)) as [p|] eqn:Hp.
  - destruct (getAllParents fuel s (id (heap s d))) as [parents|] eqn:E; [|done].
    destruct fuel as [|fuel]; [done|].
    unfold getAllParents in E. cbn [getAllParents_loop] in E.
    unfold getItem in Hd. rewrite Hd, Hp in E.
    destruct (getAllParents_loop_res _ _ _ _ _ E) as (rest & -> & Hrest).
    cbn [app length]. rewrite decide_False by done. intros [= <-].
    exists rest. split; [|split].
    + by apply (getAllParents_AncestorPath fuel s p).
    + by rewrite reverse_cons, fmap_app.
    + intros ? [= <-]. unfold getAllParents.
      replace (S fuel) with (fuel + 1)%nat by lia.
      by apply getAllParents_loop_mono.
  - intros [= <-]. exists []. split; [apply path_null|]. by split.
Qed.

Lemma getDataPath_last fuel s d pd :
  getItem s (id (heap s d)) = Some d →
  getDataPath fuel s (Some d) = Some pd →
  last pd = Some (id (heap s d)).
Proof.
  intros Hd Hpd.
  destruct (getDataPath_registered fuel s d pd Hd Hpd) as (rest & _ & -> & _).
  apply last_snoc.
Qed.

(** X12: the data path of a record extends the data path of its parent.  In
    a store whose ID map holds every record under its own id, if [d] is
    registered under its id and its parent [p] is present, then whenever
    [getDataPath(d)] returns, [getDataPath] of the parent record returns
    (with the same fuel) a non-empty path, and the path of [d] is that path
    followed by the id of [d]; and [getDataPath(d)] returns, with any fuel
    from some amount on, when the ancestor walk from the id of [d] does not
    lead into a cycle. *)
Theorem getDataPath_child s d p lp :
  (∀ k l, idMap s !! k = Some l → id (heap s l) = k) →
  getItem s (id (heap s d)) = Some d →
  parent (heap s d) = Some p →
  getItem s p = Some lp →
  (∀ fuel pd, getDataPath fuel s (Some d) = Some pd →
     ∃ pp, getDataPath fuel s (Some lp) = Some pp
           ∧ pp ≠ []
           ∧ pd = pp ++ [id (heap s d)])
  ∧ (¬ reachesCycle s (id (heap s d)) →
     ∃ n pd, ∀ fuel, (n ≤ fuel)%nat → getDataPath fuel s (Some d) = Some pd).
Proof.
  intros Hids Hd Hp Hlp. split.
  2:{ intros Hno.
      destruct (getAllParents_loop_total_walk s _ Hno) as (n & path & H).
      exists n,
        (if decide (length path = 0%nat) then []
         else fmap (λ item, id (heap s item)) (reverse path)).
      intros fuel Hf. unfold getDataPath, getAllParents.
      rewrite Hp, (H [] fuel Hf). cbn [app]. by case_decide. }
  intros fuel pd Hpd.
  destruct (getDataPath_registered fuel s d pd Hd Hpd) as (rest & Hrest & -> & Hrun).
  specialize (Hrun p Hp). rewrite Hp in Hrest.
  assert (id (heap s lp) = p) as Hidlp by by apply (Hids p lp).
  exists (fmap (λ item, id (heap s item)) (reverse rest)).
  inversion Hrest as [|k' Hk'|k' l' rest' Hk' Hrest']; subst;
    [unfold getItem in Hlp; congruence|].
  assert (l' = lp) as -> by (unfold getItem in Hlp; congruence).
  split; [|split; [|done]].
  - unfold getDataPath. destruct (parent (heap s lp)) as [q|] eqn:Hq.
    + rewrite Hrun. by rewrite decide_False.
    + inversion Hrest'; subst. by rewrite reverse_singleton.
  - rewrite reverse_cons, fmap_app. by destruct (_ <$> reverse rest').
Qed.

Lemma getDataPath_child_witness :
  (∃ pp, getDataPath 4 fixture (Some 2%positive) = Some pp
         ∧ pp ≠ []
         ∧ [KNum 1; KNum 2; KNum 4] = pp ++ [id (heap fixture 4%positive)])
  ∧ ∃ n pd, ∀ fuel, (n ≤ fuel)%nat →
      getDataPath fuel fixture (Some 4%positive) = Some pd.
Proof.
  destruct (getDataPath_child fixture 4%positive (KNum 2) 2%positive)
    as [H1 H2].
  - intros k l Hl. by apply (inv_idMap fixture fixture_inv) in Hl as [_ ?].
  - vm_compute. reflexivity.
  - vm_compute. reflexivity.
  - vm_compute. reflexivity.
  - split.
    + apply (H1 4%nat). vm_compute. reflexivity.
    + apply H2, acyclic_no_reachesCycle;
        [apply StoreInv_Indexed, fixture_inv|apply fixture_acyclic].
Defined.

(** X13: the grid gets one data path per row.  When the rows have pairwise
    distinct ids and their parent relation is acyclic, [getDataPath] returns
    for every row (with enough fuel) a path that ends with the row's id, and
    two rows with the same path are the same row. *)
Theorem grid_data_paths (h : Heap) (rows : list loc) :
  NoDup (fmap (λ l, id (h l)) rows) →
  Acyclic (treeStore h rows) →
  (∀ d, d ∈ rows →
     ∃ n pd, (∀ fuel, (n ≤ fuel)%nat →
                getDataPath fuel (treeStore h rows) (Some d) = Some pd)
             ∧ last pd = Some (id (h d)))
  ∧ (∀ d1 d2 fuel1 fuel2 pd, d1 ∈ rows → d2 ∈ rows →
       getDataPath fuel1 (treeStore h rows) (Some d1) = Some pd →
       getDataPath fuel2 (treeStore h rows) (Some d2) = Some pd →
       d1 = d2).
Proof.
  intros Hnd Hacyc. pose proof (new_inv h rows Hnd) as I.
  unfold treeStore in *. set (s := new h rows) in *.
  assert (∀ d, d ∈ rows → getItem s (id (heap s d)) = Some d) as Hreg.
  { intros d Hd. by apply (id_in_idMap s d I). }
  split.
  - intros d Hd.
    destruct (getAllParents_loop_total s (Some (id (heap s d)))
                (StoreInv_Indexed s I) Hacyc) as (n & path & Hrun).
    assert (∃ pd, getDataPath (S n) s (Some d) = Some pd) as [pd Hpd].
    { unfold getDataPath. destruct (parent (heap s d)); [|eauto].
      unfold getAllParents. rewrite (Hrun [] (S n)) by lia.
      case_decide; eauto. }
    exists (S n), pd. split; [|by apply (getDataPath_last (S n) s d pd (Hreg d Hd))].
    intros fuel Hf. revert Hpd. unfold getDataPath.
    destruct (parent (heap s d)); [|done].
    unfold getAllParents. by rewrite !Hrun by lia.
  - intros d1 d2 fuel1 fuel2 pd Hd1 Hd2 H1 H2.
    apply (getDataPath_last fuel1 s d1 pd (Hreg d1 Hd1)) in H1.
    apply (getDataPath_last fuel2 s d2 pd (Hreg d2 Hd2)) in H2.
    apply (item_of_id s I d1 d2 Hd1 Hd2). congruence.
Qed.

Lemma grid_data_paths_witness :
  ∃ n pd, (∀ fuel, (n ≤ fuel)%nat →
             getDataPath fuel fixture (Some 4%positive) = Some pd)
          ∧ last pd = Some (KNum 4).
Proof.
  destruct (grid_data_paths fixtureHeap [1; 2; 3; 4; 5; 6; 7]%positive)
    as [H _].
  - apply NoDup_by_decide. vm_compute. reflexivity.
  - apply fixture_acyclic.
  - apply (H 4%positive).
    do 3 apply list_elem_of_further. apply list_elem_of_here.
Defined.

(** X14: the group column shows a row as a group exactly when some record of
    the store names the row's id as its parent, and as an element
    otherwise (in a store whose children map is the one derived from its
    sequence). *)
Theorem innerRenderer_group s item :
  childrenMap s = rebuildChildren (heap s) (items s) →
  (innerRenderer s (Some item) = "Группа"
   ↔ ∃ l, l ∈ items s ∧ parent (heap s l) = Some (id (heap s item)))
  ∧ (innerRenderer s (Some item) = "Элемент"
     ↔ ∀ l, l ∈ items s → parent (heap s l) ≠ Some (id (heap s item))).
Proof.
  intros Hc. unfold innerRenderer. cbv zeta.
  destruct (getChildren s (id (heap s item))) as [|c cs] eqn:E.
  - assert (∀ l, l ∈ items s → parent (heap s l) ≠ Some (id (heap s item)))
      as Hnone.
    { intros l Hl Hp.
      assert (l ∈ getChildren s (id (heap s item))) as Hin
        by by apply (getChildren_elem s _ l Hc).
      rewrite E in Hin. by apply elem_of_nil in Hin. }
    rewrite bool_decide_eq_false_2 by (simpl; lia). split.
    + split; [done|]. intros (l & Hl & Hp). by destruct (Hnone l Hl).
    + done.
  - assert (c ∈ getChildren s (id (heap s item))) as Hin by (rewrite E; by left).
    apply (getChildren_elem s _ c Hc) in Hin as [Hl Hp].
    rewrite bool_decide_eq_true_2 by (simpl; lia). split.
    + split; [eauto|done].
    + split; [done|]. intros Hnone. by destruct (Hnone c Hl).
Qed.

Lemma innerRenderer_group_witness :
  innerRenderer fixture (Some 2%positive) = "Группа"
  ∧ innerRenderer fixture (Some 7%positive) = "Элемент".
Proof.
  split.
  - apply (innerRenderer_group fixture 2%positive (new_childrenMap _ _)).
    exists 4%positive. split; [|done].
    do 3 apply list_elem_of_further. apply list_elem_of_here.
  - apply (innerRenderer_group fixture 7%positive (new_childrenMap _ _)).
    intros l Hl. unfold fixture, new in Hl. cbn [items] in Hl.
    repeat (apply elem_of_cons in Hl as [->|Hl]);
      [..|by apply elem_of_nil in Hl]; vm_compute; discriminate.
Defined.

(** * Further properties: repeated and aliased updates *)

Lemma assign_self x : assign x x = x.
Proof.
  destruct x as [i p lb e]. unfold assign. cbn [id parent label extra].
  f_equal. case_decide as H; [apply (idemp (∪))|].
  rewrite delete_id; [apply (idemp (∪))|].
  destruct (e !! "__proto__"); [destruct H; eauto|done].
Qed.





(** X16: [updateItem] called with the stored instance itself
    ([Object.assign(x, x)]) succeeds and changes nothing. *)
Theorem updateItem_self s l :
  getItem s (id (heap s l)) = Some l →
  (updateItem l s).1 = Returned
  ∧ (∀ x, heap (updateItem l s).2 x = heap s x)
  ∧ items (updateItem l s).2 = items s
  ∧ idMap (updateItem l s).2 = idMap s
  ∧ childrenMap (updateItem l s).2 = childrenMap s.
Proof.
  intros Hl. rewrite (updateItem_Some s l l Hl).
  cbn [fst snd heap items idMap childrenMap].
  split; [done|]. split; [|split; [done|split; [done|]]].
  - intros x. rewrite assign_self. destruct (decide (l = x)) as [<-|Hne].
    + by rewrite fn_lookup_insert.
    + by rewrite fn_lookup_insert_ne.
  - rewrite bool_decide_eq_false_2; [done|]. intros Hne. by apply Hne.
Qed.

Lemma updateItem_self_witness :
  (updateItem 2%positive fixture).1 = Returned
  ∧ (∀ x, heap (updateItem 2%positive fixture).2 x = heap fixture x)
  ∧ items (updateItem 2%positive fixture).2 = items fixture
  ∧ idMap (updateItem 2%positive fixture).2 = idMap fixture
  ∧ childrenMap (updateItem 2%positive fixture).2 = childrenMap fixture.
Proof.
  apply (updateItem_self fixture 2%positive). vm_compute. reflexivity.
Defined.

(** * Further properties: the shape and size of a subtree *)

(** X17: the order of the descendant traversal.  Whenever
    [getAllChildren(k)] returns, its result begins with the direct children
    of [k] in their order; and if [k] has children, the children of the last
    of them follow immediately (the stack is last in, first out), before the
    descendants of its earlier siblings. *)
Theorem getAllChildren_order fuel s k d :
  getAllChildren fuel s k = Some d →
  (∃ t, d = getChildren s k ++ t)
  ∧ (∀ cs c, getChildren s k = cs ++ [c] →
       ∃ t, d = getChildren s k ++ getChildren s (id (heap s c)) ++ t).
Proof.
  destruct fuel as [|fuel]; [done|]. rewrite getAllChildren_S. intros H. split.
  - by apply getAllChildren_loop_extends in H.
  - intros cs c E. rewrite E, fmap_app in H. cbn [fmap list_fmap] in H.
    destruct fuel as [|fuel]; [done|].
    rewrite getAllChildren_loop_step in H.
    apply getAllChildren_loop_extends in H as (t & ->).
    exists t. rewrite E. list_assoc.
Qed.

Lemma getAllChildren_order_witness :
  (∃ t, [2; 3; 6; 4; 5]%positive = getChildren fixture (KNum 1) ++ t)
  ∧ (∀ cs c, getChildren fixture (KNum 1) = cs ++ [c] →
       ∃ t, [2; 3; 6; 4; 5]%positive
            = getChildren fixture (KNum 1)
              ++ getChildren fixture (id (heap fixture c)) ++ t).
Proof.
  apply (getAllChildren_order 7 fixture (KNum 1)). vm_compute. reflexivity.
Defined.

(** X18: [removeItem] removes one record more than the subtree has.  In an
    acyclic store that satisfies the invariants, if [k] is present and its
    subtree traversal returns [d], the sequence after [removeItem(k)] is
    shorter by exactly [1 + length d]. *)
Theorem removeItem_count s k lk fuel d s'
  (I : StoreInv s) (Hacyc : Acyclic s) :
  getItem s k = Some lk →
  getAllChildren fuel s k = Some d →
  removeItem fuel k s = Some s' →
  length (getAll s) = (length (getAll s') + 1 + length d)%nat.
Proof.
  intros Hk Hd Hs'.
  destruct (removeItem_Some _ _ _ _ Hs') as (d' & Hd' & _ & Hi & _).
  assert (d' = d) as -> by congruence. clear Hd'.
  destruct (getAllChildren_total s I Hacyc k) as (n & out & (Hmem & Hnd & _) & Hrun).
  assert (d = out) as <-.
  { apply (getAllChildren_fuel_irrelevant fuel n s k d out Hd). by apply Hrun. }
  apply (inv_idMap s I) in Hk as [Hlk Hid].
  unfold getAll. rewrite Hi.
  set (P := λ item, id (heap s item)
              ∉ (list_to_set (k :: fmap (λ i, id (heap s i)) d) : gset Key)).
  rewrite <- (Permutation_length (filter_app_complement P (items s))).
  rewrite length_app.
  assert (filter (λ x, ¬ P x) (items s) ≡ₚ lk :: d) as ->; [|simpl; lia].
  apply NoDup_Permutation.
  - apply NoDup_filter, (items_NoDup s I).
  - apply NoDup_cons. split; [|done].
    intros [_ T]%Hmem. rewrite Hid in T. by apply (Hacyc k).
  - intros l. rewrite list_elem_of_filter, elem_of_cons. unfold P. split.
    + intros [Hin Hl]. apply dec_stable in Hin.
      rewrite elem_of_list_to_set, elem_of_cons, list_elem_of_fmap in Hin.
      destruct Hin as [E|(x & E & Hx)].
      * left. apply (item_of_id s I l lk Hl Hlk). congruence.
      * right. destruct (proj1 (Hmem x) Hx) as [Hxi _].
        by rewrite (item_of_id s I l x Hl Hxi E).
    + intros [->|Hl].
      * split; [|done]. intros Hn. apply Hn.
        rewrite elem_of_list_to_set, Hid. by left.
      * destruct (proj1 (Hmem l) Hl) as [Hli _]. split; [|done].
        intros Hn. apply Hn. rewrite elem_of_list_to_set. right.
        by apply (list_elem_of_fmap_2 (λ i, id (heap s i))).
Qed.

Lemma removeItem_count_witness :
  length (getAll fixture)
  = (length (getAll (new fixtureHeap [1; 3; 6; 7]%positive)) + 1
     + length [4; 5]%positive)%nat.
Proof.
  apply (removeItem_count fixture (KNum 2) 2%positive 4 [4; 5]%positive
           (new fixtureHeap [1; 3; 6; 7]%positive) fixture_inv fixture_acyclic).
  - vm_compute. reflexivity.
  - vm_compute. reflexivity.
  - apply fixture_remove_2.
Defined.

(** The descendant loop only reads the children lists of the keys it
    visits. *)
Lemma getAllChildren_loop_congr s s' (C : Key → Prop) :
  (∀ x, C x → getChildren s' x = getChildren s x) →
  (∀ x c, C x → c ∈ getChildren s x → C (id (heap s c))) →
  (∀ l, id (heap s' l) = id (heap s l)) →
  ∀ fuel stack res,
    (∀ x, x ∈ stack → C x) →
    getAllChildren_loop fuel s' stack res = getAllChildren_loop fuel s stack res.
Proof.
  intros Hsame Hclosed Hids fuel.
  induction fuel as [|fuel IH]; intros stack res HC; [done|].
  destruct stack as [|top st _] using rev_ind; [done|].
  assert (C top) as Htop by (apply HC, elem_of_app; right; by left).
  rewrite !getAllChildren_loop_step, (Hsame top Htop).
  rewrite (list_fmap_ext (λ c, id (heap s' c)) (λ c, id (heap s c)))
    by (intros; apply Hids).
  apply IH. intros x [Hx|Hx]%elem_of_app.
  - apply HC, elem_of_app. by left.
  - apply list_elem_of_fmap in Hx as (c & -> & Hc). by apply (Hclosed top).
Qed.

(** X19: moving a record moves its subtree with it.  In an acyclic store
    that satisfies the invariants, a successful [updateItem] of record [k]
    whose new parent is neither [k] nor one of its descendants leaves
    [getAllChildren(k)] as it was, for every fuel. *)
Theorem updateItem_keeps_subtree s item old
  (I : StoreInv s) (Hacyc : Acyclic s) :
  getItem s (id (heap s item)) = Some old →
  (∀ p, parent (heap s item) = Some p → ¬ rtc (par s) p (id (heap s item))) →
  ∀ fuel,
    getAllChildren fuel (updateItem item s).2 (id (heap s item))
    = getAllChildren fuel s (id (heap s item)).
Proof.
  intros Hold Hnew fuel. set (k := id (heap s item)) in *.
  pose proof (updateItem_inv s item I) as I'.
  pose proof (updateItem_Some s item old Hold) as Hu. fold k in Hu.
  set (s' := (updateItem item s).2) in *.
  assert (heap s' old = assign (heap s old) (heap s item)
          ∧ (∀ l, l ≠ old → heap s' l = heap s l)
          ∧ items s' = items s) as (Hho & Hframe & Hitems).
  { subst s'. rewrite Hu. cbn [snd heap items]. rewrite fn_lookup_insert.
    split; [done|]. split; [|done]. intros l Hl. by apply fn_lookup_insert_ne. }
  assert (old ∈ items s ∧ id (heap s old) = k) as [Hin Hid]
    by by apply (inv_idMap s I).
  apply (getAllChildren_loop_congr s s' (λ x, rtc (par s) x k)).
  - intros x Hx.
    rewrite (getChildren_inv s' x (inv_children s' I')),
            (getChildren_inv s x (inv_children s I)), Hitems.
    apply filter_ext_in. intros l Hl.
    destruct (decide (l = old)) as [->|Hne]; [|by rewrite (Hframe l Hne)].
    rewrite Hho. cbn [assign parent]. split.
    + intros Hp. by destruct (Hnew x Hp).
    + intros Hp. exfalso. apply (Hacyc k). eapply tc_rtc_r; [|exact Hx].
      apply tc_once. by exists old.
  - intros x c Hx [Hc Hp]%(getChildren_spec s I).
    eapply rtc_l; [|exact Hx]. by exists c.
  - intros l. destruct (decide (l = old)) as [->|Hne]; [|by rewrite (Hframe l Hne)].
    rewrite Hho. cbn [assign id]. by rewrite Hid.
  - intros x ->%list_elem_of_singleton. apply rtc_refl.
Qed.

Lemma movedStore_inv : StoreInv movedStore.
Proof. apply new_inv, NoDup_by_decide. vm_compute. reflexivity. Qed.

Lemma movedStore_acyclic : Acyclic movedStore.
Proof.
  apply (acyclic_of_rank movedStore keyRank). intros l p Hl Hp.
  unfold movedStore, new in Hl. cbn [items] in Hl.
  repeat (apply elem_of_cons in Hl as [->|Hl]);
    [..|by apply elem_of_nil in Hl];
    vm_compute in Hp; try discriminate; injection Hp as <-; vm_compute; lia.
Qed.

Lemma movedStore_par x y :
  par movedStore x y →
  (x, y) ∈ [(KNum 2, KNum 1); (KNum 3, KNum 1); (KNum 4, KNum 2);
            (KNum 5, KNum 2); (KNum 6, KNum 3)].
Proof.
  intros (l & Hl & <- & Hp).
  unfold movedStore, new in Hl. cbn [items] in Hl.
  repeat (apply elem_of_cons in Hl as [->|Hl]);
    [..|by apply elem_of_nil in Hl];
    vm_compute in Hp; try discriminate; injection Hp as <-;
    change (id (heap movedStore ?l)) with (id (movedHeap l));
    vm_compute; set_solver.
Qed.

Lemma updateItem_keeps_subtree_witness :
  getAllChildren 4 (updateItem 9%positive movedStore).2 (KNum 2)
  = getAllChildren 4 movedStore (KNum 2).
Proof.
  apply (updateItem_keeps_subtree movedStore 9%positive 2%positive
           movedStore_inv movedStore_acyclic).
  - vm_compute. reflexivity.
  - intros p Hp Hrtc. vm_compute in Hp. injection Hp as <-.
    change (id (heap movedStore 9%positive)) with (KNum 2) in Hrtc.
    apply rtc_tc in Hrtc as [E|T]; [discriminate|].
    assert (∀ y, ¬ par movedStore (KNum 1) y) as H1.
    { intros y Hy%movedStore_par. set_solver. }
    assert (∀ y, par movedStore (KNum 3) y → y = KNum 1) as H3.
    { intros y Hy%movedStore_par. set_solver. }
    inversion T as [? ? H|? w ? H T']; subst.
    + apply H3 in H. discriminate.
    + apply H3 in H. subst w. inversion T' as [? ? H'|? w' ? H' _]; subst;
        by apply H1 in H'.
Defined.

(** * Further properties: edge cases of the data path, and re-insertion *)

(** X20: rows the store cannot place.  A row with a non-null parent whose id
    is not present in the store gets the empty data path; a row that is
    registered under its id but whose parent is not present gets the
    one-element path of a root, its own id. *)
Theorem getDataPath_unplaced fuel s d p :
  parent (heap s d) = Some p →
  (2 ≤ fuel)%nat →
  (getItem s (id (heap s d)) = None → getDataPath fuel s (Some d) = Some [])
  ∧ (getItem s (id (heap s d)) = Some d → getItem s p = None →
     getDataPath fuel s (Some d) = Some [id (heap s d)]).
Proof.
  intros Hp Hfuel. destruct fuel as [|[|fuel]]; [lia..|].
  unfold getDataPath, getAllParents, getItem. rewrite Hp.
  cbn [getAllParents_loop]. split.
  - by intros ->.
  - intros -> Hnone. by rewrite Hp, Hnone.
Qed.

Lemma getDataPath_unplaced_witness :
  getDataPath 2 fixture (Some 8%positive) = Some []
  ∧ getDataPath 2 brokenStore (Some 8%positive) = Some [KNum 99].
Proof.
  split.
  - apply (getDataPath_unplaced 2 fixture 8%positive (KNum 1));
      [by vm_compute|lia|by vm_compute].
  - apply (getDataPath_unplaced 2 brokenStore 8%positive (KNum 98));
      [by vm_compute|lia|by vm_compute|by vm_compute].
Defined.

(** X21: an id can be added at most once.  Whatever the first [addItem] did,
    a following [addItem] of any record with the same id (the same object or
    another one) throws the already-exists error and leaves the store as
    the first call left it. *)
Theorem addItem_twice s item item' :
  id (heap s item') = id (heap s item) →
  addItem item' (addItem item s).2
  = (Thrown (AlreadyExists (id (heap s item))), (addItem item s).2).
Proof.
  intros E.
  assert (heap (addItem item s).2 = heap s
          ∧ is_Some (idMap (addItem item s).2 !! id (heap s item)))
    as [Hh Hin].
  { unfold addItem. case_decide as Hk; cbn [snd heap idMap]; [done|].
    split; [done|]. rewrite lookup_insert_eq. eauto. }
  unfold addItem at 1. rewrite Hh, E. by rewrite decide_True.
Qed.

Lemma addItem_twice_witness :
  addItem 8%positive (addItem 8%positive fixture).2
  = (Thrown (AlreadyExists (KNum 8)), (addItem 8%positive fixture).2).
Proof. by apply (addItem_twice fixture 8%positive 8%positive). Defined.

(** X22: a removed id is free again.  Whenever [removeItem(k)] returns,
    [getItem(k)] is absent in the result and [addItem] of a record with id
    [k] succeeds on it. *)
Theorem removeItem_frees_id fuel k s s' item :
  removeItem fuel k s = Some s' →
  id (heap s item) = k →
  getItem s' k = None ∧ (addItem item s').1 = Returned.
Proof.
  intros Hs' E.
  destruct (removeItem_Some _ _ _ _ Hs') as (d & _ & Hh & _ & Hm & _).
  assert (getItem s' k = None) as Hnone.
  { unfold getItem. rewrite Hm, foldl_delete_lookup.
    rewrite decide_True; [done|]. by left. }
  split; [done|]. unfold addItem. rewrite Hh, E.
  rewrite decide_False; [done|]. unfold getItem in Hnone. rewrite Hnone.
  by intros [? ?].
Qed.

Lemma removeItem_frees_id_witness :
  getItem (new fixtureHeap [1; 3; 6; 7]%positive) (KNum 2) = None
  ∧ (addItem 2%positive (new fixtureHeap [1; 3; 6; 7]%positive)).1 = Returned.
Proof.
  apply (removeItem_frees_id 4 (KNum 2) fixture _ 2%positive fixture_remove_2).
  reflexivity.
Defined.
